(** * The binary target encoder of [classification_with_tfdf.py]

    A shallow embedding of the Keras layer [BinaryTargetEncoding]
    (methods [adapt], [reset_state] and [call]) together with the
    TensorFlow operations it is built from, and the properties of its
    frequency tables and of the encoded triples. *)

From Stdlib Require Import Strings.Ascii Strings.String DecimalString.
From Stdlib Require Import ZArith List Bool Lia Permutation QArith Qabs.
From Stdlib Require Import Floats.SpecFloat.
Import ListNotations.

Local Open Scope Z_scope.

(** ** Exceptions and results *)

(** The three exception classes that can leave the layer's methods. *)
Inductive exn : Type :=
| AttributeError        (* Python: attribute read before any assignment *)
| ValueError            (* raised by [call] itself *)
| InvalidArgumentError. (* raised by a TensorFlow kernel *)

Inductive result (A : Type) : Type :=
| OK (a : A)
| Raise (e : exn).
Arguments OK {A} a.
Arguments Raise {A} e.

(** Where the kernels run.  [tf.gather_nd] and
    [tf.math.unsorted_segment_sum] validate their index arguments on
    CPU only; the layer itself validates nothing. *)
Inductive device : Type := CPU | GPU.

(** ** TensorFlow operations

    Tensors of shape [[n]] and [[n, 1]] are both represented by the list
    of their [n] entries; a [[n, 3]] tensor by a list of triples. *)
Module TF.

Definition INT32_MAX : Z := 2 ^ 31 - 1.

(** Two's complement wrap-around of [int32] arithmetic. *)
Definition wrap32 (z : Z) : Z := (z + 2 ^ 31) mod 2 ^ 32 - 2 ^ 31.

Definition add32 (a b : Z) : Z := wrap32 (a + b).

(** [tf.cast(_, tf.int64)]: the data are integers of a signed dtype
    of at most 64 bits, on which the cast keeps the value. *)
Definition cast_int64 (x : Z) : Z := x.

(** [tf.cast(_, tf.bool)] of an integer. *)
Definition cast_bool (x : Z) : bool := negb (x =? 0).

(** [tf.unique(x).y]: the distinct values in order of first
    occurrence.  The kernel numbers the positions with [int32] and
    rejects inputs of more than [INT32_MAX] elements. *)
Fixpoint unique_y (xs : list Z) : list Z :=
  match xs with
  | [] => []
  | x :: t => x :: filter (fun y => negb (y =? x)) (unique_y t)
  end.

Definition unique (xs : list Z) : result (list Z) :=
  if Z.of_nat (length xs) <=? INT32_MAX then OK (unique_y xs)
  else Raise InvalidArgumentError.

(** [tf.sort], ascending. *)
Fixpoint insert (x : Z) (l : list Z) : list Z :=
  match l with
  | [] => [x]
  | y :: t => if x <=? y then x :: l else y :: insert x t
  end.

Definition sort (l : list Z) : list Z := fold_right insert [] l.

(** [tf.where(condition)]: the positions holding [true]. *)
Fixpoint where_from (i : Z) (cond : list bool) : list Z :=
  match cond with
  | [] => []
  | b :: t => if b then i :: where_from (i + 1) t else where_from (i + 1) t
  end.

Definition where_ (cond : list bool) : list Z := where_from 0 cond.

Definition logical_not (cond : list bool) : list bool := map negb cond.

(** [tf.gather_nd(params, indices)] with one index per row.  A request
    for entries of an empty [params] is refused on every device; on a
    [params] with entries an index out of bounds is an error on CPU,
    and on GPU a 0 is stored. *)
Definition in_bounds (n : nat) (i : Z) : bool :=
  (0 <=? i) && (i <? Z.of_nat n).

Fixpoint gather_rows (dev : device) (params : list Z) (indices : list Z)
  : result (list Z) :=
  match indices with
  | [] => OK []
  | i :: t =>
      if in_bounds (length params) i then
        match gather_rows dev params t with
        | OK r => OK (nth (Z.to_nat i) params 0 :: r)
        | Raise e => Raise e
        end
      else
        match dev with
        | CPU => Raise InvalidArgumentError
        | GPU =>
            match gather_rows dev params t with
            | OK r => OK (0 :: r)
            | Raise e => Raise e
            end
        end
  end.

Definition gather_nd (dev : device) (params : list Z) (indices : list Z)
  : result (list Z) :=
  match params, indices with
  | [], _ :: _ => Raise InvalidArgumentError
  | _, _ => gather_rows dev params indices
  end.

(** [tf.ones(shape=(n, 1), dtype=tf.int32)]. *)
Definition ones (n : nat) : list Z := repeat 1 n.

(** Adds [d] to entry [j] of [out], in [int32]. *)
Fixpoint add_at (j : nat) (d : Z) (out : list Z) : list Z :=
  match out, j with
  | [], _ => []
  | x :: t, O => add32 x d :: t
  | x :: t, S j' => x :: add_at j' d t
  end.

(** [tf.math.unsorted_segment_sum(data, segment_ids, num_segments)]:
    a negative segment id drops its value; an id of [num_segments] or
    more is an error on CPU and is ignored on GPU. *)
Fixpoint segment_sum_into (dev : device) (out : list Z)
  (rows : list (Z * Z)) : result (list Z) :=
  match rows with
  | [] => OK out
  | (d, j) :: rest =>
      if j <? 0 then segment_sum_into dev out rest
      else if j <? Z.of_nat (length out)
      then segment_sum_into dev (add_at (Z.to_nat j) d out) rest
      else
        match dev with
        | CPU => Raise InvalidArgumentError
        | GPU => segment_sum_into dev out rest
        end
  end.

Definition unsorted_segment_sum (dev : device) (data segment_ids : list Z)
  (num_segments : nat) : result (list Z) :=
  segment_sum_into dev (repeat 0 num_segments) (combine data segment_ids).

(** [tf.constant] of a tensor is that tensor. *)
Definition constant (t : list Z) : list Z := t.

(** [float32] is IEEE 754 binary32. *)
Definition prec : Z := 24.
Definition emax : Z := 128.

Definition float32 : Type := spec_float.

(** [tf.cast(_, tf.float32)] of an [int32], rounding to nearest even. *)
Definition cast_float32 (z : Z) : float32 := binary_normalize prec emax z 0 false.

Definition fadd (x y : float32) : float32 := SFadd prec emax x y.
Definition fdiv (x y : float32) : float32 := SFdiv prec emax x y.

(** [tf.concat([a, b, c], axis=1)] of three [[n, 1]] tensors. *)
Fixpoint concat3 (a b c : list float32) : list (float32 * float32 * float32) :=
  match a, b, c with
  | x :: a', y :: b', z :: c' => (x, y, z) :: concat3 a' b' c'
  | _, _, _ => []
  end.

End TF.

(** ** The layer object *)

(** An attribute slot of the Python object: never assigned, holding
    [None], or holding a tensor. *)
Inductive attr : Type :=
| Absent
| PyNone
| Tensor (t : list Z).

Record BinaryTargetEncoding : Type := {
  positive_frequency_lookup : attr;
  negative_frequency_lookup : attr
}.

(** [__init__] only calls the base constructor: it assigns no lookup. *)
Definition init : BinaryTargetEncoding :=
  {| positive_frequency_lookup := Absent; negative_frequency_lookup := Absent |}.

(** Methods are computations on [self] that return a value or raise. *)
Definition M (A : Type) : Type :=
  BinaryTargetEncoding -> result A * BinaryTargetEncoding.

Definition ret {A} (a : A) : M A := fun self => (OK a, self).

Definition raise {A} (e : exn) : M A := fun self => (Raise e, self).

Definition bind {A B} (m : M A) (k : A -> M B) : M B :=
  fun self =>
    match m self with
    | (OK a, self') => k a self'
    | (Raise e, self') => (Raise e, self')
    end.

Definition lift {A} (r : result A) : M A := fun self => (r, self).

Notation "x <- m ;; k" := (bind m (fun x => k))
  (at level 61, m at next level, right associativity).
Notation "m ;;; k" := (bind m (fun _ => k))
  (at level 61, right associativity).

(** Reading an attribute that was never assigned raises. *)
Definition get_positive_frequency_lookup : M attr :=
  fun self =>
    match positive_frequency_lookup self with
    | Absent => (Raise AttributeError, self)
    | a => (OK a, self)
    end.

Definition get_negative_frequency_lookup : M attr :=
  fun self =>
    match negative_frequency_lookup self with
    | Absent => (Raise AttributeError, self)
    | a => (OK a, self)
    end.

Definition set_positive_frequency_lookup (a : attr) : M unit :=
  fun self =>
    (OK tt, {| positive_frequency_lookup := a;
               negative_frequency_lookup := negative_frequency_lookup self |}).

Definition set_negative_frequency_lookup (a : attr) : M unit :=
  fun self =>
    (OK tt, {| positive_frequency_lookup := positive_frequency_lookup self;
               negative_frequency_lookup := a |}).

(** [x == None]: a tensor is never equal to [None]. *)
Definition eq_None (a : attr) : bool :=
  match a with
  | PyNone => true
  | _ => false
  end.

(** The tensor behind an attribute that passed the [None] test. *)
Definition tensor_of (a : attr) : list Z :=
  match a with
  | Tensor t => t
  | _ => []
  end.

Definition adapt (dev : device) (data : list (Z * Z)) : M unit :=
  let feature_values := map (fun row => TF.cast_int64 (fst row)) data in
  let target_values := map (fun row => TF.cast_bool (snd row)) data in
  y <- lift (TF.unique feature_values) ;;
  let unique_feature_values := TF.sort y in
  let positive_indices := TF.where_ target_values in
  postive_feature_values <- lift (TF.gather_nd dev feature_values positive_indices) ;;
  positive_frequency <-
    lift (TF.unsorted_segment_sum dev
            (TF.ones (length postive_feature_values))
            postive_feature_values
            (length unique_feature_values)) ;;
  let negative_indices := TF.where_ (TF.logical_not target_values) in
  negative_feature_values <- lift (TF.gather_nd dev feature_values negative_indices) ;;
  negative_frequency <-
    lift (TF.unsorted_segment_sum dev
            (TF.ones (length negative_feature_values))
            negative_feature_values
            (length unique_feature_values)) ;;
  set_positive_frequency_lookup (Tensor (TF.constant positive_frequency)) ;;;
  set_negative_frequency_lookup (Tensor (TF.constant negative_frequency)).

Definition reset_state : M unit :=
  set_positive_frequency_lookup PyNone ;;;
  set_negative_frequency_lookup PyNone.

(** The test [a == None or b == None], with Python's short circuit. *)
Definition lookups_unset : M bool :=
  p <- get_positive_frequency_lookup ;;
  if eq_None p then ret true
  else
    n <- get_negative_frequency_lookup ;;
    ret (eq_None n).

Definition call (dev : device) (inputs : list Z)
  : M (list (TF.float32 * TF.float32 * TF.float32)) :=
  unset <- lookups_unset ;;
  if unset then raise ValueError
  else
    let inputs := map TF.cast_int64 inputs in
    p <- get_positive_frequency_lookup ;;
    pg <- lift (TF.gather_nd dev (tensor_of p) inputs) ;;
    let positive_fequency := map TF.cast_float32 pg in
    n <- get_negative_frequency_lookup ;;
    ng <- lift (TF.gather_nd dev (tensor_of n) inputs) ;;
    let negative_fequency := map TF.cast_float32 ng in
    let positive_probability :=
      map (fun pn => TF.fdiv (fst pn) (TF.fadd (fst pn) (snd pn)))
          (combine positive_fequency negative_fequency) in
    ret (TF.concat3 positive_fequency negative_fequency positive_probability).

(** ** Vocabulary of the statements *)

(** The data of the example's own test. *)
Definition test_data : list (Z * Z) :=
  [ (0, 1); (2, 0); (0, 1); (1, 1); (1, 1); (2, 0); (1, 0); (0, 1); (2, 1);
    (1, 0); (0, 1); (2, 0); (0, 1); (1, 1); (1, 1); (2, 0); (1, 0); (0, 1);
    (2, 0) ].

(** A fit input given as (index, label) pairs, as a two-column table. *)
Definition rows_of_pairs (pairs : list (Z * bool)) : list (Z * Z) :=
  map (fun vb : Z * bool => (fst vb, if snd vb then 1 else 0)) pairs.

Definition features (data : list (Z * Z)) : list Z :=
  map (fun row => TF.cast_int64 (fst row)) data.

(** The feature values of the rows whose label is [b]. *)
Definition labelled (b : bool) (data : list (Z * Z)) : list Z :=
  features (filter (fun row => Bool.eqb (TF.cast_bool (snd row)) b) data).

(** The number of segments [adapt] asks for. *)
Definition vocabulary_size (data : list (Z * Z)) : nat :=
  length (TF.sort (TF.unique_y (features data))).

(** How many entries of [ids] equal [v]. *)
Definition occurrences (v : Z) (ids : list Z) : Z :=
  Z.of_nat (count_occ Z.eq_dec ids v).

(** The feature values are exactly the integers of [[0, n)]. *)
Definition dense_range (data : list (Z * Z)) (n : Z) : Prop :=
  forall v, In v (features data) <-> 0 <= v < n.

Definition maximum (l : list Z) : Z := fold_right Z.max (hd 0 l) l.

Definition list_sum (l : list Z) : Z := fold_right Z.add 0 l.

(** Entry [v] of a lookup table, 0 where the table has none. *)
Definition entry (table : list Z) (v : Z) : Z :=
  if TF.in_bounds (length table) v then nth (Z.to_nat v) table 0 else 0.

(** The table [adapt] computes for one label. *)
Definition frequency_table (dev : device) (data : list (Z * Z)) (b : bool)
  : result (list Z) :=
  TF.segment_sum_into dev (repeat 0 (vocabulary_size data))
    (map (pair 1) (labelled b data)).


(** A state that some successful [adapt] has produced. *)
Definition fitted (enc : BinaryTargetEncoding) : Prop :=
  exists dev data self, adapt dev data self = (OK tt, enc).

(** The rational value of a finite float. *)
Definition F2Q (x : TF.float32) : option Q :=
  match x with
  | S754_zero _ => Some 0%Q
  | S754_finite s m e =>
      let n := if s then Zneg m else Zpos m in
      Some (match e with
            | Zneg k => Qmake n (2 ^ k)
            | _ => inject_Z (n * 2 ^ e)
            end)
  | _ => None
  end.

(** A mantissa, exponent and rounding location that denote a value of
    at most 1. *)
Definition at_most_one (m e : Z) (l : location) : Prop :=
  0 <= m /\ e <= 0 /\ m <= 2 ^ (- e) /\ (m = 2 ^ (- e) -> l = loc_Exact).

(** A float that is [+0], or positive and at most 1. *)
Definition in_unit_interval (x : TF.float32) : Prop :=
  match x with
  | S754_zero false => True
  | S754_finite false m e => e <= 0 /\ Zpos m <= 2 ^ (- e)
  | _ => False
  end.

(** The triple [call] computes from one looked-up pair of frequencies. *)
Definition triple_of (p n : Z) : TF.float32 * TF.float32 * TF.float32 :=
  (TF.cast_float32 p, TF.cast_float32 n,
   TF.fdiv (TF.cast_float32 p) (TF.fadd (TF.cast_float32 p) (TF.cast_float32 n))).

(** The size of the fitted vocabulary. *)
Definition fitted_size (enc : BinaryTargetEncoding) : Z :=
  Z.of_nat (length (tensor_of (positive_frequency_lookup enc))).

Definition test_pairs : list (Z * bool) :=
  [ (0, true); (2, false); (0, true); (1, true); (1, true); (2, false);
    (1, false); (0, true); (2, true); (1, false); (0, true); (2, false);
    (0, true); (1, true); (1, true); (2, false); (1, false); (0, true);
    (2, false) ].

(** The float denotes exactly the rational [q]. *)
Definition has_value (x : TF.float32) (q : Q) : Prop :=
  exists q', F2Q x = Some q' /\ (q' == q)%Q.

(** The float is finite and within [eps] of the rational [q]. *)
Definition within (x : TF.float32) (q eps : Q) : Prop :=
  exists q', F2Q x = Some q' /\ (Qabs (q' - q) <= eps)%Q.

(** ** Vocabulary of the further statements *)

(** The target column with every non-zero label written as 1. *)
Definition binarize_targets (data : list (Z * Z)) : list (Z * Z) :=
  map (fun row => (fst row, if snd row =? 0 then 0 else 1)) data.

(** The binary32 number 1. *)
Definition float32_one : TF.float32 := S754_finite false 8388608 (-23).

(** ** Python lists, dictionaries and strings

    A [str] is a [string]; a [dict] keeps its keys in the order of their
    first insertion. *)
Module Py.

(** [x in l]. *)
Definition list_contains (l : list string) (x : string) : bool :=
  existsb (String.eqb x) l.

(** [l.index(x)]: the first position of [x], [ValueError] without one. *)
Fixpoint list_index (l : list string) (x : string) : result Z :=
  match l with
  | [] => Raise ValueError
  | y :: t =>
      if String.eqb y x then OK 0
      else match list_index t x with
           | OK i => OK (i + 1)
           | Raise e => Raise e
           end
  end.

Definition dict (V : Type) : Type := list (string * V).

Definition dict_keys {V} (d : dict V) : list string := map fst d.

(** [k in d]. *)
Definition dict_contains {V} (d : dict V) (k : string) : bool :=
  list_contains (dict_keys d) k.

(** [d[k]], [None] standing for [KeyError]. *)
Fixpoint dict_get {V} (d : dict V) (k : string) : option V :=
  match d with
  | [] => None
  | (k', v) :: t => if String.eqb k' k then Some v else dict_get t k
  end.

(** [d[k] = v]: a key already present keeps its place. *)
Fixpoint dict_set {V} (d : dict V) (k : string) (v : V) : dict V :=
  match d with
  | [] => [(k, v)]
  | (k', v') :: t =>
      if String.eqb k' k then (k', v) :: t else (k', v') :: dict_set t k v
  end.

(** A comprehension or loop whose body may raise: it stops at the
    first exception. *)
Fixpoint mapM {A B} (f : A -> result B) (l : list A) : result (list B) :=
  match l with
  | [] => OK []
  | x :: t =>
      match f x with
      | Raise e => Raise e
      | OK y =>
          match mapM f t with
          | Raise e => Raise e
          | OK ys => OK (y :: ys)
          end
      end
  end.

(** [s.split(":")[0]]: the text before the first colon. *)
Fixpoint split_colon_0 (s : string) : string :=
  match s with
  | EmptyString => EmptyString
  | String c t =>
      if Ascii.eqb c ":" then EmptyString else String c (split_colon_0 t)
  end.

(** [s.replace(" ", "_")]. *)
Fixpoint replace_space (s : string) : string :=
  match s with
  | EmptyString => EmptyString
  | String c t =>
      String (if Ascii.eqb c " " then "_"%char else c) (replace_space t)
  end.

(** [l.startswith(b"|")]. *)
Definition startswith_bar (l : string) : bool :=
  match l with
  | String c _ => Ascii.eqb c "|"
  | EmptyString => false
  end.

(** [c in s] for a character. *)
Fixpoint contains_char (c : ascii) (s : string) : bool :=
  match s with
  | EmptyString => false
  | String c' t => Ascii.eqb c' c || contains_char c t
  end.

(** [str(n)] of an integer. *)
Definition str_int (z : Z) : string := NilZero.string_of_int (Z.to_int z).



End Py.

(** ** The dataset metadata *)

(** The column names: one per line of the [.names] file that is not a
    comment, cut at the first colon and with spaces replaced, without
    the first two, and the target column after them.  [decode] is
    [bytes.decode("utf-8")]. *)
Definition CSV_HEADER (decode : string -> result string) (names_file : list string)
  : result (list string) :=
  match Py.mapM
          (fun l =>
             match decode l with
             | OK s => OK (Py.replace_space (Py.split_colon_0 s))
             | Raise e => Raise e
             end)
          (filter (fun l => negb (Py.startswith_bar l)) names_file)
  with
  | OK names => OK (skipn 2 names ++ ["income_level"%string])
  | Raise e => Raise e
  end.

Definition target_labels : list string := [" - 50000."; " 50000+."]%string.

(** [column.map(target_labels.index)]. *)
Definition map_target_labels (column : list string) : result (list Z) :=
  Py.mapM (Py.list_index target_labels) column.

Definition TARGET_COLUMN_NAME : string := "income_level".
Definition WEIGHT_COLUMN_NAME : string := "instance_weight".
Definition NUMERIC_FEATURE_NAMES : list string :=
  [ "age"; "wage_per_hour"; "capital_gains"; "capital_losses";
    "dividends_from_stocks"; "num_persons_worked_for_employer";
    "weeks_worked_in_year" ]%string.

(** The dictionary comprehension over the header; [vocabulary] is the
    sorted list of the distinct values of a column. *)
Definition CATEGORICAL_FEATURES_WITH_VOCABULARY (header : list string)
  (vocabulary : string -> list string) : Py.dict (list string) :=
  fold_left
    (fun d feature_name =>
       if Py.list_contains
            (NUMERIC_FEATURE_NAMES ++ [WEIGHT_COLUMN_NAME; TARGET_COLUMN_NAME])
            feature_name
       then d
       else Py.dict_set d feature_name (vocabulary feature_name))
    header [].

Definition FEATURE_NAMES (categorical : Py.dict (list string)) : list string :=
  NUMERIC_FEATURE_NAMES ++ Py.dict_keys categorical.

(** ** Model inputs and feature usages *)

Inductive DType : Type := tf_float32 | tf_float64 | tf_int64 | tf_string.

Definition DType_eqb (a b : DType) : bool :=
  match a, b with
  | tf_float32, tf_float32 | tf_float64, tf_float64
  | tf_int64, tf_int64 | tf_string, tf_string => true
  | _, _ => false
  end.

(** [layers.Input(name=..., shape=(), dtype=...)]. *)
Record Input : Type := {
  input_name : string;
  input_shape : list Z;
  input_dtype : DType
}.

Definition create_model_inputs (feature_names : list string) : Py.dict Input :=
  fold_left
    (fun inputs feature_name =>
       if Py.list_contains NUMERIC_FEATURE_NAMES feature_name
       then Py.dict_set inputs feature_name
              {| input_name := feature_name; input_shape := [];
                 input_dtype := tf_float32 |}
       else Py.dict_set inputs feature_name
              {| input_name := feature_name; input_shape := [];
                 input_dtype := tf_string |})
    feature_names [].

Inductive FeatureSemantic : Type := NUMERICAL | CATEGORICAL.

(** [tfdf.keras.FeatureUsage(name=..., semantic=...)]. *)
Record FeatureUsage : Type := {
  usage_name : string;
  usage_semantic : FeatureSemantic
}.

(** The loop runs over the keys and reads each key's own input. *)
Definition specify_feature_usages (inputs : Py.dict Input) : list FeatureUsage :=
  map (fun item : string * Input =>
         let (feature_name, input) := item in
         if DType_eqb (input_dtype input) tf_float32
         then {| usage_name := feature_name; usage_semantic := NUMERICAL |}
         else {| usage_name := feature_name; usage_semantic := CATEGORICAL |})
      inputs.

(** ** Dataset batches *)

(** One feature of a batch, as the dataset hands it to [prepare_sample]. *)
Inductive FeatureTensor : Type :=
| StringTensor (values : list string)
| Int64Tensor (values : list Z)
| FloatTensor (values : list TF.float32).

(** [t.dtype == tf.dtypes.string]. *)
Definition is_string (t : FeatureTensor) : bool :=
  match t with
  | StringTensor _ => true
  | _ => false
  end.

(** [tf.strings.as_string]; [format] is its way of writing a float. *)
Definition as_string (format : TF.float32 -> string) (t : FeatureTensor)
  : FeatureTensor :=
  match t with
  | StringTensor values => StringTensor values
  | Int64Tensor values => StringTensor (map Py.str_int values)
  | FloatTensor values => StringTensor (map format values)
  end.

Definition prepare_sample {T W : Type} (format : TF.float32 -> string)
  (categorical : Py.dict (list string))
  (features : Py.dict FeatureTensor) (target : T) (weight : W)
  : Py.dict FeatureTensor * T * W :=
  (fold_left
     (fun features feature_name =>
        if Py.dict_contains categorical feature_name then
          match Py.dict_get features feature_name with
          | Some t =>
              if negb (is_string t)
              then Py.dict_set features feature_name (as_string format t)
              else features
          | None => features
          end
        else features)
     (Py.dict_keys features) features,
   target, weight).

(** ** The training table *)

(** A value of a categorical column: text, or an integer code. *)
Inductive cell : Type :=
| TextCell (s : string)
| IntCell (z : Z).




(** A row of [train_data]: a value per feature column, and the target
    column, which holds integers once the labels are mapped. *)
Record Row : Type := {
  row_value : string -> cell;
  row_income_level : Z
}.

Definition DataFrame : Type := list Row.

(** [train_data[feature_name]]. *)
Definition column (train_data : DataFrame) (feature_name : string) : list cell :=
  map (fun row => row_value row feature_name) train_data.


(** ** The string lookup layer *)




(** ** The preprocessing model with target encoding *)




(** One example of a batch given to the model: the text of each
    categorical input and the number of each numeric one. *)
Record Example : Type := {
  example_text : string -> string;
  example_number : string -> TF.float32
}.










(** ** A small training table *)





(** Decides the overflow test of [binary_round_aux] for an exponent
    known to be small. *)
Ltac exponent_fits e :=
  replace (e <=? TF.emax - TF.prec) with true
    by (symmetry; apply Z.leb_le; unfold TF.emax, TF.prec; lia).

(** ** The operations on small inputs *)

Example unique_first_occurrence : TF.unique_y [2; 0; 2; 1; 0] = [2; 0; 1].
Proof. reflexivity. Qed.

Example where_positions : TF.where_ [true; false; true] = [0; 2].
Proof. reflexivity. Qed.

Example segment_sum_in_range (dev : device) :
  TF.unsorted_segment_sum dev (TF.ones 4) [0; 2; 0; 1] 3 = OK [2; 1; 1].
Proof. destruct dev; reflexivity. Qed.

Example segment_sum_negative_id (dev : device) :
  TF.unsorted_segment_sum dev (TF.ones 2) [-1; 0] 1 = OK [1].
Proof. destruct dev; reflexivity. Qed.

Example segment_sum_id_too_large :
  TF.unsorted_segment_sum CPU (TF.ones 2) [0; 1] 1 = Raise InvalidArgumentError /\
  TF.unsorted_segment_sum GPU (TF.ones 2) [0; 1] 1 = OK [1].
Proof. split; reflexivity. Qed.

Example gather_nd_index_too_large :
  TF.gather_nd CPU [6; 4; 1] [1; 3] = Raise InvalidArgumentError /\
  TF.gather_nd GPU [6; 4; 1] [1; 3] = OK [4; 0].
Proof. split; reflexivity. Qed.

Example add32_wraps : TF.add32 TF.INT32_MAX 1 = - 2 ^ 31.
Proof. reflexivity. Qed.

Example cast_float32_three : TF.cast_float32 3 = S754_finite false 12582912 (-22).
Proof. reflexivity. Qed.

Example cast_float32_rounds :
  TF.cast_float32 (2 ^ 24 + 1) = TF.cast_float32 (2 ^ 24).
Proof. reflexivity. Qed.

Example reset_state_sets_None :
  reset_state init
  = (OK tt, {| positive_frequency_lookup := PyNone;
               negative_frequency_lookup := PyNone |}).
Proof. reflexivity. Qed.

(** ** Facts about binary32 rounding *)

Lemma digits2_pos_bounds (p : positive) :
  2 ^ (Zpos (digits2_pos p) - 1) <= Zpos p < 2 ^ Zpos (digits2_pos p).
Proof.
  induction p as [p IH | p IH |]; cbn [digits2_pos].
  - rewrite Pos2Z.inj_succ.
    replace (Z.succ (Zpos (digits2_pos p)) - 1) with (Z.succ (Zpos (digits2_pos p) - 1)) by lia.
    rewrite !Z.pow_succ_r by lia. lia.
  - rewrite Pos2Z.inj_succ.
    replace (Z.succ (Zpos (digits2_pos p)) - 1) with (Z.succ (Zpos (digits2_pos p) - 1)) by lia.
    rewrite !Z.pow_succ_r by lia. lia.
  - cbn. lia.
Qed.

Lemma digits2_pos_unique (p : positive) (n : Z) :
  2 ^ (n - 1) <= Zpos p < 2 ^ n -> Zpos (digits2_pos p) = n.
Proof.
  intros [Hlo Hhi].
  pose proof (digits2_pos_bounds p) as [Dlo Dhi].
  assert (0 < n).
  { destruct (Z.ltb_spec 0 n); [assumption|].
    assert (2 ^ n <= 1).
    { destruct (Z.eq_dec n 0) as [-> | ]; [cbn; lia|].
      rewrite Z.pow_neg_r by lia. lia. }
    lia. }
  assert (Zpos (digits2_pos p) - 1 < n).
  { apply (Z.pow_lt_mono_r_iff 2); lia. }
  assert (n - 1 < Zpos (digits2_pos p)).
  { apply (Z.pow_lt_mono_r_iff 2); lia. }
  lia.
Qed.

Lemma iter_pos_nat {A} (f : A -> A) (k : positive) (x : A) :
  iter_pos f k x = Nat.iter (Pos.to_nat k) f x.
Proof.
  revert x. induction k as [k IH | k IH |]; intros x; cbn [iter_pos].
  - rewrite !IH, Pos2Nat.inj_xI.
    replace (S (2 * Pos.to_nat k)) with (Pos.to_nat k + (Pos.to_nat k + 1))%nat by lia.
    rewrite !Nat.iter_add. reflexivity.
  - rewrite !IH, Pos2Nat.inj_xO.
    replace (2 * Pos.to_nat k)%nat with (Pos.to_nat k + Pos.to_nat k)%nat by lia.
    rewrite Nat.iter_add. reflexivity.
  - reflexivity.
Qed.

Lemma shr_1_m (mrs : shr_record) :
  0 <= shr_m mrs -> shr_m (shr_1 mrs) = shr_m mrs / 2.
Proof.
  destruct mrs as [m r s]; cbn [shr_m]; intros Hm.
  destruct m as [| [p | p |] | p]; cbn [shr_1 shr_m]; try lia.
  - reflexivity.
  - rewrite Pos2Z.inj_xI. apply (Z.div_unique _ _ _ 1); lia.
  - rewrite Pos2Z.inj_xO. apply (Z.div_unique _ _ _ 0); lia.
  - reflexivity.
Qed.

Lemma shr_1_exact (m : Z) :
  0 <= m -> m mod 2 = 0 ->
  shr_1 (Build_shr_record m false false) = Build_shr_record (m / 2) false false.
Proof.
  intros Hm Hev.
  destruct m as [| [p | p |] | p]; cbn [shr_1 orb]; try lia.
  - reflexivity.
  - rewrite Pos2Z.inj_xI in Hev. exfalso.
    rewrite Z.add_comm, Z.mul_comm, Z.mod_add in Hev by lia. cbn in Hev. lia.
  - f_equal. rewrite Pos2Z.inj_xO. apply (Z.div_unique _ _ _ 0); lia.
  - cbn in Hev. lia.
Qed.

Lemma iter_shr_m (n : nat) (mrs : shr_record) :
  0 <= shr_m mrs ->
  shr_m (Nat.iter n shr_1 mrs) = shr_m mrs / 2 ^ Z.of_nat n.
Proof.
  revert mrs. induction n as [| n IH]; intros mrs Hm.
  - cbn. now rewrite Z.div_1_r.
  - rewrite Nat.iter_succ_r, IH by (rewrite shr_1_m by assumption; apply Z.div_pos; lia).
    rewrite shr_1_m by assumption.
    rewrite Z.div_div by lia.
    rewrite Nat2Z.inj_succ, Z.pow_succ_r by lia. reflexivity.
Qed.

Lemma iter_shr_exact (n : nat) (m : Z) :
  0 <= m -> m mod 2 ^ Z.of_nat n = 0 ->
  Nat.iter n shr_1 (Build_shr_record m false false)
  = Build_shr_record (m / 2 ^ Z.of_nat n) false false.
Proof.
  revert m. induction n as [| n IH]; intros m Hm Hmod.
  - cbn. now rewrite Z.div_1_r.
  - rewrite Nat2Z.inj_succ, Z.pow_succ_r in * by lia.
    assert (Hdiv : m = 2 * (2 ^ Z.of_nat n * (m / (2 * 2 ^ Z.of_nat n)))).
    { pose proof (Z.div_mod m (2 * 2 ^ Z.of_nat n)). lia. }
    assert (Hev : m mod 2 = 0).
    { rewrite Hdiv, Z.mul_comm. apply Z.mod_mul. lia. }
    assert (Hhalf : m / 2 = 2 ^ Z.of_nat n * (m / (2 * 2 ^ Z.of_nat n))).
    { rewrite Hdiv at 1. rewrite Z.mul_comm, Z.div_mul by lia. reflexivity. }
    rewrite Nat.iter_succ_r, shr_1_exact by assumption.
    rewrite IH.
    + rewrite Z.div_div by lia. reflexivity.
    + apply Z.div_pos; lia.
    + rewrite Hhalf, Z.mul_comm. apply Z.mod_mul. lia.
Qed.

Lemma loc_of_shr_record_of_loc (m : Z) (l : location) :
  loc_of_shr_record (shr_record_of_loc m l) = l.
Proof. destruct l as [| []]; reflexivity. Qed.

Lemma shr_m_record_of_loc (m : Z) (l : location) :
  shr_m (shr_record_of_loc m l) = m.
Proof. destruct l as [| []]; reflexivity. Qed.

Lemma Zdigits2_le (m k : Z) :
  0 <= m -> 0 <= k -> m <= 2 ^ k -> Zdigits2 m <= k + 1.
Proof.
  intros Hm Hk Hle. destruct m as [| p | p]; cbn [Zdigits2]; try lia.
  pose proof (digits2_pos_bounds p) as [Dlo _].
  assert (Zpos (digits2_pos p) - 1 < k + 1); [| lia].
  apply (Z.pow_lt_mono_r_iff 2); try lia.
  rewrite Z.pow_add_r, Z.pow_1_r by lia. lia.
Qed.

Lemma shr_fexp_at_most_one (m e : Z) (l : location) :
  at_most_one m e l ->
  at_most_one (shr_m (fst (shr_fexp TF.prec TF.emax m e l)))
              (snd (shr_fexp TF.prec TF.emax m e l))
              (loc_of_shr_record (fst (shr_fexp TF.prec TF.emax m e l))).
Proof.
  intros (Hm & He & Hle & Hex).
  unfold shr_fexp, shr.
  pose proof (Zdigits2_le m (- e) Hm ltac:(lia) Hle) as Hd.
  assert (Hf : fexp TF.prec TF.emax (Zdigits2 m + e) <= 0).
  { unfold fexp, emin, TF.prec, TF.emax. lia. }
  destruct (fexp TF.prec TF.emax (Zdigits2 m + e) - e) as [| k | k] eqn:Hk; cbn [fst snd].
  - rewrite shr_m_record_of_loc, loc_of_shr_record_of_loc. repeat split; assumption.
  - rewrite iter_pos_nat.
    assert (Hpow : 2 ^ (- e) = 2 ^ (- (e + Zpos k)) * 2 ^ Zpos k).
    { rewrite <- Z.pow_add_r by lia. f_equal. lia. }
    assert (Hq : shr_m (Nat.iter (Pos.to_nat k) shr_1 (shr_record_of_loc m l)) = m / 2 ^ Zpos k).
    { rewrite iter_shr_m by (rewrite shr_m_record_of_loc; assumption).
      rewrite shr_m_record_of_loc, positive_nat_Z. reflexivity. }
    assert (Hkpos : 0 < 2 ^ Zpos k) by (apply Z.pow_pos_nonneg; lia).
    rewrite Hq. repeat split.
    + apply Z.div_pos; lia.
    + lia.
    + apply Z.div_le_upper_bound; [lia|]. rewrite Z.mul_comm, <- Hpow. assumption.
    + intros Heq.
      assert (Hm' : m = 2 ^ (- e)).
      { pose proof (Z.mul_div_le m (2 ^ Zpos k) Hkpos). rewrite Heq in H. lia. }
      rewrite (Hex Hm'). cbn [shr_record_of_loc].
      rewrite iter_shr_exact; [reflexivity | assumption |].
      rewrite positive_nat_Z, Hm', Hpow. apply Z.mod_mul. lia.
  - rewrite shr_m_record_of_loc, loc_of_shr_record_of_loc. repeat split; assumption.
Qed.

Lemma round_at_most_one (m e : Z) (l : location) :
  at_most_one m e l -> at_most_one (round_nearest_even m l) e loc_Exact.
Proof.
  intros (Hm & He & Hle & Hex).
  assert (Hcase : l = loc_Exact \/ m + 1 <= 2 ^ (- e)).
  { destruct (Z.eq_dec m (2 ^ (- e))) as [Heq | Hne]; [left; auto | right; lia]. }
  unfold at_most_one, round_nearest_even.
  destruct l as [| [ | | ]]; try destruct (Z.even m);
    repeat split; try lia; destruct Hcase as [Hc | Hc]; try discriminate; lia.
Qed.

Lemma binary_round_aux_at_most_one (m e : Z) (l : location) :
  at_most_one m e l ->
  in_unit_interval (binary_round_aux TF.prec TF.emax false m e l).
Proof.
  intros H1. unfold binary_round_aux.
  pose proof (shr_fexp_at_most_one m e l H1) as H2.
  destruct (shr_fexp TF.prec TF.emax m e l) as [mrs' e']. cbn [fst snd] in H2.
  apply round_at_most_one in H2.
  apply shr_fexp_at_most_one in H2.
  destruct (shr_fexp TF.prec TF.emax _ e' loc_Exact) as [mrs'' e'']. cbn [fst snd] in H2.
  destruct H2 as (Hm & He & Hle & _).
  destruct (shr_m mrs'') as [| p | p]; cbn [in_unit_interval].
  - exact I.
  - exponent_fits (e'').
    cbn. split; assumption.
  - lia.
Qed.

Lemma SFdiv_at_most_one (m1 : positive) (e1 : Z) (m2 : positive) (e2 : Z) :
  e1 <= e2 -> Zpos m1 <= Zpos m2 * 2 ^ (e2 - e1) ->
  in_unit_interval (SFdiv TF.prec TF.emax (S754_finite false m1 e1) (S754_finite false m2 e2)).
Proof.
  intros He Hle. unfold SFdiv, SFdiv_core_binary. cbn [xorb].
  set (e' := Z.min _ _).
  assert (He' : e' <= e1 - e2) by (subst e'; lia).
  set (s := e1 - e2 - e').
  assert (Hs : 0 <= s) by (subst s; lia).
  set (m' := match s with Z0 => Zpos m1 | Zpos _ => Z.shiftl (Zpos m1) s | Zneg _ => 0 end).
  assert (Hm' : m' = Zpos m1 * 2 ^ s).
  { subst m'. destruct s as [| k | k] eqn:Hsk.
    - cbn. lia.
    - apply Z.shiftl_mul_pow2. lia.
    - lia. }
  assert (Hbound : m' <= Zpos m2 * 2 ^ (- e')).
  { rewrite Hm'. replace (- e') with (e2 - e1 + s) by (subst s; lia).
    rewrite Z.pow_add_r by lia.
    assert (0 < 2 ^ s) by (apply Z.pow_pos_nonneg; lia). nia. }
  pose proof (Z_div_mod m' (Zpos m2) ltac:(lia)) as Hdm.
  destruct (Z.div_eucl m' (Zpos m2)) as [q r]. destruct Hdm as [Heq Hr].
  apply binary_round_aux_at_most_one.
  assert (Hp : 0 < 2 ^ (- e')) by (apply Z.pow_pos_nonneg; lia).
  assert (0 <= m') by (rewrite Hm'; apply Z.mul_nonneg_nonneg; [lia | apply Z.pow_nonneg; lia]).
  assert (Hq0 : 0 <= q) by nia.
  assert (Hq1 : q <= 2 ^ (- e')) by nia.
  repeat split; try lia.
  intros Hq. assert (r = 0) by nia. subst r.
  unfold new_location, new_location_even, new_location_odd.
  destruct (Z.even (Zpos m2)); reflexivity.
Qed.

Lemma pos_iter_xO (m k : positive) :
  Zpos (Pos.iter xO m k) = Zpos m * 2 ^ Zpos k.
Proof.
  induction k as [| k IH] using Pos.peano_ind.
  - cbn. lia.
  - rewrite Pos.iter_succ, Pos2Z.inj_xO, IH, Pos2Z.inj_succ, Z.pow_succ_r by lia. lia.
Qed.

Lemma round_nearest_even_range (m : Z) (l : location) :
  m <= round_nearest_even m l <= m + 1.
Proof.
  unfold round_nearest_even. destruct l as [| [ | | ]]; try destruct (Z.even m); lia.
Qed.

Lemma fexp_normal (t : Z) : -125 <= t -> fexp TF.prec TF.emax t = t - 24.
Proof. unfold fexp, emin, TF.prec, TF.emax. lia. Qed.

(** A mantissa of exactly 24 bits is left alone by [binary_round_aux]. *)
Lemma binary_round_aux_canonical (m : positive) (e : Z) :
  Zpos (digits2_pos m) = 24 -> -149 <= e <= 104 ->
  binary_round_aux TF.prec TF.emax false (Zpos m) e loc_Exact = S754_finite false m e.
Proof.
  intros Hd He.
  assert (Hk : fexp TF.prec TF.emax (Zdigits2 (Zpos m) + e) - e = 0).
  { cbn [Zdigits2]. rewrite Hd. unfold fexp, emin, TF.prec, TF.emax. lia. }
  unfold binary_round_aux, shr_fexp.
  cbn [round_nearest_even shr_record_of_loc].
  rewrite Hk. cbn [shr shr_m loc_of_shr_record round_nearest_even shr_record_of_loc].
  rewrite Hk. cbn [shr shr_m].
  exponent_fits (e).
  reflexivity.
Qed.

(** Rounding a positive [m * 2 ^ e] in the normal range: the result has
    a 24-bit mantissa and is not below the truncation of the input. *)
Lemma binary_round_normal (m : positive) (e : Z) :
  -125 <= e -> Zpos (digits2_pos m) + e <= 127 ->
  let g := Zpos (digits2_pos m) + e - 24 in
  exists m' e',
    binary_round TF.prec TF.emax false m e = S754_finite false m' e' /\
    Zpos (digits2_pos m') = 24 /\
    g <= e' <= g + 1 /\
    (g <= e -> e' = g /\ Zpos m' = Zpos m * 2 ^ (e - g)) /\
    (e < g -> Zpos m / 2 ^ (g - e) <= Zpos m' * 2 ^ (e' - g)).
Proof.
  intros He Hd g.
  pose proof (digits2_pos_bounds m) as [Dlo Dhi].
  assert (Hdpos : 0 < Zpos (digits2_pos m)) by lia.
  assert (Hfexp : fexp TF.prec TF.emax (Zpos (digits2_pos m) + e) = g).
  { subst g. apply fexp_normal. lia. }
  unfold binary_round. rewrite Hfexp. unfold shl_align.
  destruct (g - e) as [| k | k] eqn:Hk.
  - (* exactly 24 bits *)
    exists m, e. rewrite binary_round_aux_canonical by lia.
    repeat split; try lia.
    replace (e - g) with 0 by lia. lia.
  - (* more than 24 bits: shift right by k and round *)
    assert (Hpk : 0 < 2 ^ Zpos k) by (apply Z.pow_pos_nonneg; lia).
    assert (Hsplit : 2 ^ (Zpos (digits2_pos m) - 1) = 2 ^ Zpos k * 2 ^ 23).
    { rewrite <- Z.pow_add_r by lia. f_equal. lia. }
    assert (Hsplit' : 2 ^ Zpos (digits2_pos m) = 2 ^ Zpos k * 2 ^ 24).
    { rewrite <- Z.pow_add_r by lia. f_equal. lia. }
    set (m1 := Zpos m / 2 ^ Zpos k).
    assert (Hm1lo : 2 ^ 23 <= m1).
    { apply Z.div_le_lower_bound; lia. }
    assert (Hm1hi : m1 < 2 ^ 24).
    { apply Z.div_lt_upper_bound; lia. }
    unfold binary_round_aux, shr_fexp at 1.
    cbn [Zdigits2]. rewrite Hfexp, Hk. cbn [shr shr_record_of_loc].
    rewrite iter_pos_nat.
    set (mrs := Nat.iter (Pos.to_nat k) shr_1 (Build_shr_record (Zpos m) false false)).
    assert (Hmrs : shr_m mrs = m1).
    { subst mrs m1. rewrite iter_shr_m by (cbn; lia). cbn [shr_m].
      rewrite positive_nat_Z. reflexivity. }
    rewrite Hmrs.
    pose proof (round_nearest_even_range m1 (loc_of_shr_record mrs)) as Hr.
    set (m2 := round_nearest_even m1 (loc_of_shr_record mrs)) in *.
    replace (e + Zpos k) with g by lia.
    destruct m2 as [| p2 | p2] eqn:Hm2; try lia.
    destruct (Z.eq_dec (Zpos p2) (2 ^ 24)) as [Htop | Hlow].
    + (* the mantissa rounded up to 2^24 *)
      assert (Hd2 : Zpos (digits2_pos p2) = 25).
      { apply digits2_pos_unique. rewrite Htop. cbn. lia. }
      unfold shr_fexp. cbn [Zdigits2]. rewrite Hd2.
      replace (fexp TF.prec TF.emax (25 + g) - g) with 1
        by (rewrite fexp_normal by lia; lia).
      cbn [shr shr_record_of_loc iter_pos].
      injection Htop as ->. cbn [shr_1 shr_m].
      exponent_fits (g + 1).
      eexists _, _. split; [reflexivity |].
      repeat split; try lia; try reflexivity.
      intros _. replace (g + 1 - g) with 1 by lia. fold m1. cbn. cbn in Hm1hi. lia.
    + assert (Hd2 : Zpos (digits2_pos p2) = 24).
      { apply digits2_pos_unique. cbn in *. lia. }
      unfold shr_fexp. cbn [Zdigits2]. rewrite Hd2.
      replace (fexp TF.prec TF.emax (24 + g) - g) with 0
        by (rewrite fexp_normal by lia; lia).
      cbn [shr shr_record_of_loc shr_m].
      exponent_fits (g).
      exists p2, g. repeat split; try lia.
      intros _. fold m1. rewrite Z.sub_diag. cbn. lia.
  - (* fewer than 24 bits: shift left by k *)
    assert (Hv : Zpos (Pos.iter xO m k) = Zpos m * 2 ^ Zpos k) by apply pos_iter_xO.
    assert (Hpk : 0 < 2 ^ Zpos k) by (apply Z.pow_pos_nonneg; lia).
    assert (Hd' : Zpos (digits2_pos (Pos.iter xO m k)) = 24).
    { apply digits2_pos_unique. rewrite Hv.
      assert (E1 : 2 ^ (24 - 1) = 2 ^ (Zpos (digits2_pos m) - 1) * 2 ^ Zpos k).
      { rewrite <- Z.pow_add_r by lia. f_equal. lia. }
      assert (E2 : 2 ^ 24 = 2 ^ Zpos (digits2_pos m) * 2 ^ Zpos k).
      { rewrite <- Z.pow_add_r by lia. f_equal. lia. }
      rewrite E1, E2. nia. }
    exists (Pos.iter xO m k), g.
    rewrite binary_round_aux_canonical by lia.
    repeat split; try lia.
    rewrite Hv. f_equal. f_equal. lia.
Qed.

Lemma cast_float32_pos (p : Z) :
  0 < p <= TF.INT32_MAX ->
  exists m e,
    TF.cast_float32 p = S754_finite false m e /\
    Zpos (digits2_pos m) = 24 /\ -23 <= e <= 8.
Proof.
  intros [Hlo Hhi]. destruct p as [| p | p]; try lia.
  pose proof (digits2_pos_bounds p) as [Dlo _].
  assert (Hd : Zpos (digits2_pos p) - 1 < 31).
  { apply (Z.pow_lt_mono_r_iff 2); try lia. unfold TF.INT32_MAX in Hhi. lia. }
  destruct (binary_round_normal p 0) as (m & e & Hr & Hm & He & _); try lia.
  exists m, e. unfold TF.cast_float32, binary_normalize. repeat split; try assumption; lia.
Qed.

Lemma shl_align_value (m : positive) (e e' : Z) :
  e' <= e -> Zpos (fst (shl_align m e e')) = Zpos m * 2 ^ (e - e').
Proof.
  intros Hle. unfold shl_align.
  destruct (e' - e) as [| k | k] eqn:Hk; cbn [fst]; try lia.
  - replace (e - e') with 0 by lia. lia.
  - rewrite pos_iter_xO. f_equal. f_equal. lia.
Qed.

(** The sum of two positive normal floats is a float not below the
    first summand. *)
Lemma SFadd_ge (mP : positive) (eP : Z) (mN : positive) (eN : Z) :
  Zpos (digits2_pos mP) = 24 -> Zpos (digits2_pos mN) = 24 ->
  -100 <= eP <= 100 -> -100 <= eN <= 100 ->
  exists ms es,
    SFadd TF.prec TF.emax (S754_finite false mP eP) (S754_finite false mN eN)
    = S754_finite false ms es /\
    eP <= es /\ Zpos mP <= Zpos ms * 2 ^ (es - eP).
Proof.
  intros HdP HdN HeP HeN.
  pose proof (digits2_pos_bounds mP) as [Plo Phi]. rewrite HdP in Plo, Phi.
  pose proof (digits2_pos_bounds mN) as [Nlo Nhi]. rewrite HdN in Nlo, Nhi.
  unfold SFadd. cbn [cond_Zopp].
  set (ez := Z.min eP eN).
  pose proof (shl_align_value mP eP ez ltac:(subst ez; lia)) as HvP.
  pose proof (shl_align_value mN eN ez ltac:(subst ez; lia)) as HvN.
  set (a := fst (shl_align mP eP ez)) in *.
  set (b := fst (shl_align mN eN ez)) in *.
  cbn [Z.add binary_normalize].
  set (M := (a + b)%positive).
  assert (HM : Zpos M = Zpos mP * 2 ^ (eP - ez) + Zpos mN * 2 ^ (eN - ez)).
  { subst M. rewrite Pos2Z.inj_add. lia. }
  assert (HpP : 0 < 2 ^ (eP - ez)) by (apply Z.pow_pos_nonneg; subst ez; lia).
  assert (HpN : 0 < 2 ^ (eN - ez)) by (apply Z.pow_pos_nonneg; subst ez; lia).
  pose proof (digits2_pos_bounds M) as [Mlo Mhi].
  set (d := Zpos (digits2_pos M)) in *.
  assert (Hdhi : d + ez <= 127).
  { assert (d - 1 < 25 + Z.max eP eN - ez); [| lia].
    apply (Z.pow_lt_mono_r_iff 2); [lia | subst ez; lia |].
    eapply Z.le_lt_trans; [exact Mlo |].
    replace (25 + Z.max eP eN - ez) with (1 + (24 + (Z.max eP eN - ez))) by lia.
    rewrite (Z.pow_add_r 2 1), (Z.pow_add_r 2 24) by (subst ez; lia).
    assert (2 ^ (eP - ez) <= 2 ^ (Z.max eP eN - ez))
      by (apply Z.pow_le_mono_r; subst ez; lia).
    assert (2 ^ (eN - ez) <= 2 ^ (Z.max eP eN - ez))
      by (apply Z.pow_le_mono_r; subst ez; lia).
    change (2 ^ 1) with 2. nia. }
  assert (Hdlo : eP <= d + ez - 24).
  { assert (23 + (eP - ez) < d); [| lia].
    apply (Z.pow_lt_mono_r_iff 2); [lia | lia |].
    rewrite Z.pow_add_r by (subst ez; lia). nia. }
  destruct (binary_round_normal M ez) as (ms & es & Hr & Hms & Hes & Hexact & Htrunc);
    [subst ez; lia | assumption |].
  fold d in Hes, Hexact, Htrunc.
  exists ms, es. split; [exact Hr |]. split; [lia |].
  destruct (Z_le_gt_dec (d + ez - 24) ez) as [Hle | Hgt].
  - destruct (Hexact Hle) as [-> Hval].
    assert (ez = eP) by (subst ez; lia).
    replace (d + ez - 24 - eP) with 0 by lia.
    replace (ez - (d + ez - 24)) with 0 in Hval by lia.
    replace (eP - ez) with 0 in HM by lia. lia.
  - specialize (Htrunc ltac:(lia)).
    set (g := d + ez - 24) in *.
    assert (Hpg : 0 < 2 ^ (g - ez)) by (apply Z.pow_pos_nonneg; lia).
    replace (es - eP) with ((es - g) + (g - eP)) by lia.
    rewrite Z.pow_add_r by lia.
    assert (Hpe : 0 < 2 ^ (es - g)) by (apply Z.pow_pos_nonneg; lia).
    destruct (Z.eq_dec g eP) as [Heq | Hne].
    + rewrite Heq in *. rewrite Z.sub_diag. change (2 ^ 0) with 1.
      assert (Zpos mP <= Zpos M / 2 ^ (eP - ez)); [| lia].
      apply Z.div_le_lower_bound; [assumption | nia].
    + assert (Hm1 : 2 ^ 23 <= Zpos M / 2 ^ (g - ez)).
      { apply Z.div_le_lower_bound; [assumption |].
        rewrite <- Z.pow_add_r by lia.
        replace (g - ez + 23) with (d - 1) by lia. exact Mlo. }
      assert (2 <= 2 ^ (g - eP)).
      { change 2 with (2 ^ 1) at 1. apply Z.pow_le_mono_r; lia. }
      nia.
Qed.

Lemma ratio_in_unit_interval (p n : Z) :
  0 <= p <= TF.INT32_MAX -> 0 <= n <= TF.INT32_MAX -> p + n <> 0 ->
  in_unit_interval
    (TF.fdiv (TF.cast_float32 p) (TF.fadd (TF.cast_float32 p) (TF.cast_float32 n))).
Proof.
  intros Hp Hn Hsum.
  destruct (Z.eq_dec p 0) as [-> | Hp0].
  - destruct (cast_float32_pos n) as (mN & eN & -> & _); [lia |].
    cbn. exact I.
  - destruct (cast_float32_pos p) as (mP & eP & -> & HdP & HeP); [lia |].
    destruct (Z.eq_dec n 0) as [-> | Hn0].
    + change (TF.cast_float32 0) with (S754_zero false).
      unfold TF.fadd, TF.fdiv. cbn [SFadd].
      apply SFdiv_at_most_one; [lia |].
      rewrite Z.sub_diag. lia.
    + destruct (cast_float32_pos n) as (mN & eN & -> & HdN & HeN); [lia |].
      destruct (SFadd_ge mP eP mN eN) as (ms & es & Hs & Hes & Hle); try lia.
      unfold TF.fadd, TF.fdiv. rewrite Hs.
      apply SFdiv_at_most_one; assumption.
Qed.

Lemma in_unit_interval_F2Q (x : spec_float) :
  in_unit_interval x -> exists q, F2Q x = Some q /\ (0 <= q <= 1)%Q.
Proof.
  destruct x as [[|] | | | [|] m e]; cbn [in_unit_interval]; try contradiction.
  - intros _. exists 0%Q. split; [reflexivity |]. split; [apply Qle_refl | discriminate].
  - intros [He Hm]. cbn [F2Q]. eexists. split; [reflexivity |].
    destruct e as [| k | k]; try lia.
    + cbn in Hm. unfold Qle, inject_Z. cbn. lia.
    + change (- Zneg k) with (Zpos k) in Hm.
      unfold Qle. cbn [Qnum Qden]. rewrite Pos2Z.inj_pow. lia.
Qed.


(** ** Facts about the TensorFlow operations *)

Lemma wrap32_small (z : Z) : - 2 ^ 31 <= z < 2 ^ 31 -> TF.wrap32 z = z.
Proof.
  intros Hz. unfold TF.wrap32. rewrite Z.mod_small; lia.
Qed.

Lemma wrap32_add_l (a b : Z) : TF.wrap32 (TF.wrap32 a + b) = TF.wrap32 (a + b).
Proof.
  unfold TF.wrap32. f_equal.
  replace ((a + 2 ^ 31) mod 2 ^ 32 - 2 ^ 31 + b + 2 ^ 31)
    with ((a + 2 ^ 31) mod 2 ^ 32 + b) by lia.
  rewrite Z.add_mod_idemp_l by lia. f_equal. lia.
Qed.

Lemma wrap32_idem (a : Z) : TF.wrap32 (TF.wrap32 a) = TF.wrap32 a.
Proof.
  transitivity (TF.wrap32 (TF.wrap32 a + 0)).
  - f_equal. lia.
  - rewrite wrap32_add_l. f_equal. lia.
Qed.

Lemma add32_swap (x d d' : Z) :
  TF.add32 (TF.add32 x d) d' = TF.add32 (TF.add32 x d') d.
Proof.
  unfold TF.add32. rewrite !wrap32_add_l. f_equal. lia.
Qed.

Lemma length_add_at (j : nat) (d : Z) (out : list Z) :
  length (TF.add_at j d out) = length out.
Proof.
  revert j. induction out as [| x t IH]; intros [| j]; cbn; auto.
Qed.

Lemma add_at_comm (a b : nat) (d d' : Z) (out : list Z) :
  TF.add_at a d (TF.add_at b d' out) = TF.add_at b d' (TF.add_at a d out).
Proof.
  revert a b. induction out as [| x t IH]; intros [| a] [| b]; cbn; try reflexivity.
  - now rewrite add32_swap.
  - now rewrite IH.
Qed.

Lemma nth_add_at (i j : nat) (d : Z) (out : list Z) :
  (j < length out)%nat ->
  nth i (TF.add_at j d out) 0
  = if Nat.eqb i j then TF.add32 (nth i out 0) d else nth i out 0.
Proof.
  revert i j. induction out as [| x t IH]; intros i j Hj; cbn in Hj; [lia |].
  destruct j as [| j], i as [| i]; cbn; try reflexivity.
  apply IH. lia.
Qed.

Lemma Forall_add_at (j : nat) (d : Z) (out : list Z) :
  Forall (fun x => TF.wrap32 x = x) out ->
  Forall (fun x => TF.wrap32 x = x) (TF.add_at j d out).
Proof.
  intros H. revert j. induction H as [| x t Hx Ht IH]; intros [| j]; cbn.
  - constructor.
  - constructor.
  - constructor; [apply wrap32_idem | assumption].
  - constructor; [assumption | apply IH].
Qed.

(** The segment sum does not depend on the order of the rows. *)
Lemma segment_sum_into_perm (dev : device) (rows rows' : list (Z * Z)) :
  Permutation rows rows' ->
  forall out, TF.segment_sum_into dev out rows = TF.segment_sum_into dev out rows'.
Proof.
  induction 1 as [| [d j] l l' _ IH | [d j] [d' j'] l | l l' l'' _ IH1 _ IH2];
    intros out.
  - reflexivity.
  - cbn. rewrite !IH. destruct dev; rewrite ?IH; reflexivity.
  - cbn [TF.segment_sum_into].
    destruct (j <? 0) eqn:Hj, (j' <? 0) eqn:Hj'; try reflexivity;
      destruct (j <? Z.of_nat (length out)) eqn:Hb,
               (j' <? Z.of_nat (length out)) eqn:Hb';
      rewrite ?length_add_at, ?Hb, ?Hb'; try reflexivity;
      destruct dev; rewrite ?length_add_at, ?Hb, ?Hb'; try reflexivity;
      now rewrite add_at_comm.
  - now rewrite IH1.
Qed.

Lemma combine_ones (ids : list Z) :
  combine (TF.ones (length ids)) ids = map (pair 1) ids.
Proof.
  induction ids as [| i t IH]; cbn; [reflexivity | now rewrite <- IH].
Qed.

Lemma occurrences_cons (v i : Z) (ids : list Z) :
  occurrences v (i :: ids) = (if Z.eqb i v then 1 else 0) + occurrences v ids.
Proof.
  unfold occurrences. cbn [count_occ].
  destruct (Z.eq_dec i v) as [-> | Hne].
  - rewrite Z.eqb_refl. lia.
  - apply Z.eqb_neq in Hne. rewrite Hne. lia.
Qed.

Lemma occurrences_bounds (v : Z) (ids : list Z) :
  0 <= occurrences v ids <= Z.of_nat (length ids).
Proof.
  unfold occurrences. pose proof (count_occ_bound Z.eq_dec v ids). lia.
Qed.

(** Entry [j] of a sum of ones is the former entry plus the number of
    ids equal to [j], in [int32]. *)
Lemma segment_sum_ones_nth (dev : device) (ids : list Z) :
  forall out out',
    TF.segment_sum_into dev out (map (pair 1) ids) = OK out' ->
    Forall (fun x => TF.wrap32 x = x) out ->
    length out' = length out /\
    forall j, (j < length out)%nat ->
      nth j out' 0 = TF.wrap32 (nth j out 0 + occurrences (Z.of_nat j) ids).
Proof.
  induction ids as [| i t IH]; intros out out' Hrun Hout.
  - cbn in Hrun. injection Hrun as <-. split; [reflexivity |].
    intros j Hj. unfold occurrences. cbn. rewrite Z.add_0_r.
    symmetry. rewrite Forall_forall in Hout. apply Hout, nth_In, Hj.
  - cbn [map TF.segment_sum_into] in Hrun.
    assert (Hskip : (i <? 0) = true \/ Z.of_nat (length out) <= i ->
                    forall j, (j < length out)%nat ->
                      occurrences (Z.of_nat j) (i :: t) = occurrences (Z.of_nat j) t).
    { intros Hi j Hj. rewrite occurrences_cons.
      replace (i =? Z.of_nat j) with false; [lia |].
      symmetry. apply Z.eqb_neq. destruct Hi as [Hi | Hi]; [apply Z.ltb_lt in Hi |]; lia. }
    destruct (i <? 0) eqn:Hneg.
    { destruct (IH _ _ Hrun Hout) as [Hlen Hnth]. split; [assumption |].
      intros j Hj. rewrite Hskip by auto. auto. }
    destruct (i <? Z.of_nat (length out)) eqn:Hin.
    { apply Z.ltb_ge in Hneg. apply Z.ltb_lt in Hin.
      destruct (IH _ _ Hrun (Forall_add_at _ _ _ Hout)) as [Hlen Hnth].
      rewrite length_add_at in Hlen, Hnth. split; [assumption |].
      intros j Hj. rewrite (Hnth j Hj), nth_add_at by lia.
      rewrite occurrences_cons.
      destruct (Nat.eqb_spec j (Z.to_nat i)) as [-> | Hne].
      - rewrite Z2Nat.id, Z.eqb_refl by lia.
        unfold TF.add32. rewrite wrap32_add_l. f_equal. lia.
      - replace (i =? Z.of_nat j) with false; [f_equal; lia |].
        symmetry. apply Z.eqb_neq. lia. }
    apply Z.ltb_ge in Hin.
    destruct dev; [discriminate |].
    destruct (IH _ _ Hrun Hout) as [Hlen Hnth]. split; [assumption |].
    intros j Hj. rewrite Hskip by auto. auto.
Qed.

(** On GPU the sum always succeeds; on CPU it does when no id reaches
    the number of segments. *)
Lemma segment_sum_ones_ok (dev : device) (ids : list Z) :
  forall out,
    dev = GPU \/ Forall (fun i => i < Z.of_nat (length out)) ids ->
    exists out', TF.segment_sum_into dev out (map (pair 1) ids) = OK out'.
Proof.
  induction ids as [| i t IH]; intros out Hok.
  - exists out. reflexivity.
  - assert (Hok' : forall o : list Z, length o = length out ->
                    dev = GPU \/ Forall (fun i => i < Z.of_nat (length o)) t).
    { intros o Ho. destruct Hok as [-> | Hall]; [now left | right].
      rewrite Ho. now inversion Hall. }
    cbn [map TF.segment_sum_into].
    destruct (i <? 0); [apply IH, Hok', eq_refl |].
    destruct (i <? Z.of_nat (length out)) eqn:Hin;
      [apply IH, Hok', length_add_at |].
    apply Z.ltb_ge in Hin.
    destruct Hok as [-> | Hall]; [apply IH; now left |].
    inversion Hall; lia.
Qed.

Lemma segment_sum_ones_fail (ids : list Z) :
  forall out,
    Exists (fun i => Z.of_nat (length out) <= i) ids ->
    TF.segment_sum_into CPU out (map (pair 1) ids) = Raise InvalidArgumentError.
Proof.
  induction ids as [| i t IH]; intros out Hex; [inversion Hex |].
  cbn [map TF.segment_sum_into].
  destruct (i <? 0) eqn:Hneg.
  - apply IH. inversion Hex as [? ? Hi | ? ? Ht]; [| assumption].
    apply Z.ltb_lt in Hneg. lia.
  - destruct (i <? Z.of_nat (length out)) eqn:Hin; [| reflexivity].
    apply IH. rewrite length_add_at.
    inversion Hex as [? ? Hi | ? ? Ht]; [| assumption].
    apply Z.ltb_lt in Hin. lia.
Qed.

(** On a tensor with entries [tf.gather_nd] goes row by row. *)
Lemma gather_nd_rows (dev : device) (params indices : list Z) :
  params <> [] -> TF.gather_nd dev params indices = TF.gather_rows dev params indices.
Proof.
  destruct params; [congruence | reflexivity].
Qed.

Lemma gather_nd_nil (dev : device) (params : list Z) :
  TF.gather_nd dev params [] = OK [].
Proof.
  destruct params; reflexivity.
Qed.


(** Gathering at the positions [tf.where] returns keeps the selected
    rows, in order, and never fails. *)
Lemma gather_nd_where_from (dev : device) (f : Z * Z -> Z) (g : Z * Z -> bool)
  (data : list (Z * Z)) :
  forall pre,
    TF.gather_rows dev (pre ++ map f data)
      (TF.where_from (Z.of_nat (length pre)) (map g data))
    = OK (map f (filter g data)).
Proof.
  induction data as [| row t IH]; intros pre; [reflexivity |].
  assert (Hnext : TF.gather_rows dev (pre ++ map f (row :: t))
                    (TF.where_from (Z.of_nat (length pre) + 1) (map g t))
                  = OK (map f (filter g t))).
  { specialize (IH (pre ++ [f row])).
    rewrite <- app_assoc, length_app, Nat2Z.inj_add in IH. exact IH. }
  cbn [map TF.where_from filter]. destruct (g row).
  - cbn [TF.gather_rows]. cbn [map] in Hnext. rewrite Hnext.
    replace (TF.in_bounds _ _) with true.
    + rewrite Nat2Z.id, app_nth2, Nat.sub_diag by lia. reflexivity.
    + symmetry. unfold TF.in_bounds. rewrite length_app. cbn [length].
      apply andb_true_iff. split; [apply Z.leb_le | apply Z.ltb_lt]; lia.
  - exact Hnext.
Qed.

Lemma gather_nd_where (dev : device) (f : Z * Z -> Z) (g : Z * Z -> bool)
  (data : list (Z * Z)) :
  TF.gather_nd dev (map f data) (TF.where_ (map g data))
  = OK (map f (filter g data)).
Proof.
  destruct data as [| row t]; [reflexivity |].
  rewrite gather_nd_rows by discriminate.
  exact (gather_nd_where_from dev f g (row :: t) []).
Qed.

Lemma length_insert (x : Z) (l : list Z) :
  length (TF.insert x l) = S (length l).
Proof.
  induction l as [| y t IH]; cbn; [reflexivity |].
  destruct (x <=? y); cbn; [reflexivity | now rewrite IH].
Qed.

Lemma length_sort (l : list Z) : length (TF.sort l) = length l.
Proof.
  induction l as [| x t IH]; cbn; [reflexivity |].
  fold (TF.sort t). now rewrite length_insert, IH.
Qed.

Lemma unique_y_In (l : list Z) (x : Z) : In x (TF.unique_y l) <-> In x l.
Proof.
  induction l as [| y t IH]; cbn; [tauto |].
  rewrite filter_In, IH, negb_true_iff, Z.eqb_neq.
  destruct (Z.eq_dec y x); intuition congruence.
Qed.

Lemma unique_y_NoDup (l : list Z) : NoDup (TF.unique_y l).
Proof.
  induction l as [| y t IH]; cbn; constructor.
  - rewrite filter_In, negb_true_iff, Z.eqb_neq. tauto.
  - now apply NoDup_filter.
Qed.

(** The number of segments is the number of distinct feature values. *)
Lemma vocabulary_size_nodup (data : list (Z * Z)) :
  vocabulary_size data = length (nodup Z.eq_dec (features data)).
Proof.
  unfold vocabulary_size. rewrite length_sort.
  apply Permutation_length, NoDup_Permutation.
  - apply unique_y_NoDup.
  - apply NoDup_nodup.
  - intros x. now rewrite unique_y_In, nodup_In.
Qed.

Lemma features_perm (data data' : list (Z * Z)) :
  Permutation data data' -> Permutation (features data) (features data').
Proof. apply Permutation_map. Qed.

Lemma filter_perm {A} (g : A -> bool) (l l' : list A) :
  Permutation l l' -> Permutation (filter g l) (filter g l').
Proof.
  induction 1 as [| x l l' _ IH | x y l | l l' l'' _ IH1 _ IH2]; cbn.
  - constructor.
  - destruct (g x); [now constructor | assumption].
  - destruct (g x), (g y); try reflexivity. apply perm_swap.
  - now transitivity (filter g l').
Qed.

Lemma labelled_perm (b : bool) (data data' : list (Z * Z)) :
  Permutation data data' -> Permutation (labelled b data) (labelled b data').
Proof. intros H. apply features_perm, filter_perm, H. Qed.

Lemma vocabulary_size_perm (data data' : list (Z * Z)) :
  Permutation data data' -> vocabulary_size data = vocabulary_size data'.
Proof.
  intros H. rewrite !vocabulary_size_nodup.
  apply Permutation_length, NoDup_Permutation; try apply NoDup_nodup.
  intros x. rewrite !nodup_In.
  split; apply Permutation_in; [| symmetry]; now apply features_perm.
Qed.

Lemma vocabulary_size_dense (data : list (Z * Z)) (n : Z) :
  dense_range data n -> vocabulary_size data = Z.to_nat n.
Proof.
  intros Hd. rewrite vocabulary_size_nodup.
  transitivity (length (map Z.of_nat (seq 0 (Z.to_nat n))));
    [| now rewrite length_map, length_seq].
  apply Permutation_length, NoDup_Permutation.
  - apply NoDup_nodup.
  - apply Finite.Injective_map_NoDup; [intros a b; lia | apply seq_NoDup].
  - intros x. rewrite nodup_In, (Hd x), in_map_iff. split.
    + intros Hx. exists (Z.to_nat x). rewrite in_seq. lia.
    + intros (k & <- & Hk). rewrite in_seq in Hk. lia.
Qed.

(** ** The methods in closed form *)

Lemma adapt_eq (dev : device) (data : list (Z * Z)) (self : BinaryTargetEncoding) :
  adapt dev data self =
  if Z.of_nat (length data) <=? TF.INT32_MAX then
    match frequency_table dev data true with
    | Raise e => (Raise e, self)
    | OK p =>
        match frequency_table dev data false with
        | Raise e => (Raise e, self)
        | OK n =>
            (OK tt, {| positive_frequency_lookup := Tensor p;
                       negative_frequency_lookup := Tensor n |})
        end
    end
  else (Raise InvalidArgumentError, self).
Proof.
  unfold adapt, bind, lift, TF.unique, TF.constant. rewrite length_map.
  destruct (Z.of_nat (length data) <=? TF.INT32_MAX); [| reflexivity].
  unfold TF.logical_not. rewrite map_map, !gather_nd_where.
  unfold TF.unsorted_segment_sum. rewrite !combine_ones.
  unfold frequency_table, labelled, features, vocabulary_size, features.
  rewrite (filter_ext (fun row => Bool.eqb (TF.cast_bool (snd row)) true)
             (fun row => TF.cast_bool (snd row)))
    by (intros row; destruct (TF.cast_bool (snd row)); reflexivity).
  rewrite (filter_ext (fun row => Bool.eqb (TF.cast_bool (snd row)) false)
             (fun row => negb (TF.cast_bool (snd row))))
    by (intros row; destruct (TF.cast_bool (snd row)); reflexivity).
  destruct (TF.segment_sum_into dev _ _) as [p | e]; [| reflexivity].
  destruct (TF.segment_sum_into dev _ _) as [n | e]; reflexivity.
Qed.

(** More rows than [tf.unique] accepts: nothing is fitted. *)
Lemma adapt_too_large (dev : device) (data : list (Z * Z))
  (self : BinaryTargetEncoding) :
  TF.INT32_MAX < Z.of_nat (length data) ->
  adapt dev data self = (Raise InvalidArgumentError, self).
Proof.
  intros Hlen. rewrite adapt_eq.
  replace (_ <=? _) with false; [reflexivity |].
  symmetry. now apply Z.leb_gt.
Qed.

Lemma length_labelled (b : bool) (data : list (Z * Z)) :
  (length (labelled b data) <= length data)%nat.
Proof.
  unfold labelled, features. rewrite length_map. apply filter_length_le.
Qed.

Lemma in_bounds_spec (n : nat) (v : Z) :
  TF.in_bounds n v = true <-> 0 <= v < Z.of_nat n.
Proof.
  unfold TF.in_bounds. rewrite andb_true_iff, Z.leb_le, Z.ltb_lt. tauto.
Qed.

(** A table that [adapt] computed holds, for each index below the
    vocabulary size, the number of rows with that index and label. *)
Lemma frequency_table_spec (dev : device) (data : list (Z * Z)) (b : bool)
  (t : list Z) :
  frequency_table dev data b = OK t ->
  Z.of_nat (length data) <= TF.INT32_MAX ->
  length t = vocabulary_size data /\
  forall v, 0 <= v < Z.of_nat (vocabulary_size data) ->
    entry t v = occurrences v (labelled b data).
Proof.
  intros Hrun Hlen. unfold frequency_table in Hrun.
  apply segment_sum_ones_nth in Hrun.
  - destruct Hrun as [Hl Hnth]. rewrite repeat_length in Hl, Hnth.
    split; [assumption |]. intros v Hv.
    unfold entry. rewrite Hl.
    replace (TF.in_bounds _ v) with true by (symmetry; now apply in_bounds_spec).
    rewrite Hnth by lia. rewrite nth_repeat, Z2Nat.id, Z.add_0_l by lia.
    apply wrap32_small.
    pose proof (occurrences_bounds v (labelled b data)).
    pose proof (length_labelled b data).
    unfold TF.INT32_MAX in Hlen. lia.
  - apply Forall_forall. intros x Hx. apply repeat_spec in Hx. now subst x.
Qed.

Lemma adapt_ok_inv (dev : device) (data : list (Z * Z))
  (self enc : BinaryTargetEncoding) :
  adapt dev data self = (OK tt, enc) ->
  Z.of_nat (length data) <= TF.INT32_MAX /\
  exists p n,
    frequency_table dev data true = OK p /\
    frequency_table dev data false = OK n /\
    enc = {| positive_frequency_lookup := Tensor p;
             negative_frequency_lookup := Tensor n |}.
Proof.
  rewrite adapt_eq.
  destruct (Z.leb_spec (Z.of_nat (length data)) TF.INT32_MAX) as [Hle | Hgt];
    [| discriminate].
  destruct (frequency_table dev data true) as [p | e]; [| discriminate].
  destruct (frequency_table dev data false) as [n | e]; [| discriminate].
  intros [= <-]. split; [assumption |]. now exists p, n.
Qed.

Lemma occurrences_labelled (v : Z) (data : list (Z * Z)) :
  occurrences v (labelled true data) + occurrences v (labelled false data)
  = occurrences v (features data).
Proof.
  unfold labelled, features. induction data as [| row t IH]; [reflexivity |].
  cbn [filter map]. destruct (TF.cast_bool (snd row)); cbn [Bool.eqb map];
    rewrite !occurrences_cons; lia.
Qed.

Lemma occurrences_pos (v : Z) (ids : list Z) :
  In v ids <-> 0 < occurrences v ids.
Proof.
  unfold occurrences. rewrite (count_occ_In Z.eq_dec). lia.
Qed.

(** The state of a fitted encoder: two tables of one length, holding
    counts. *)
Lemma fitted_tables (enc : BinaryTargetEncoding) :
  fitted enc ->
  exists p n,
    enc = {| positive_frequency_lookup := Tensor p;
             negative_frequency_lookup := Tensor n |} /\
    length p = length n /\
    (forall v, 0 <= entry p v <= TF.INT32_MAX) /\
    (forall v, 0 <= entry n v <= TF.INT32_MAX).
Proof.
  intros (dev & data & self & Hrun).
  apply adapt_ok_inv in Hrun. destruct Hrun as (Hlen & p & n & Hp & Hn & ->).
  destruct (frequency_table_spec _ _ _ _ Hp Hlen) as [Lp Ep].
  destruct (frequency_table_spec _ _ _ _ Hn Hlen) as [Ln En].
  exists p, n. split; [reflexivity |]. split; [congruence |].
  assert (Hb : forall b t,
             length t = vocabulary_size data ->
             (forall v, 0 <= v < Z.of_nat (vocabulary_size data) ->
                        entry t v = occurrences v (labelled b data)) ->
             forall v, 0 <= entry t v <= TF.INT32_MAX).
  { intros b t Lt Et v.
    destruct (TF.in_bounds (length t) v) eqn:Hin.
    - apply in_bounds_spec in Hin. rewrite Et by lia.
      pose proof (occurrences_bounds v (labelled b data)).
      pose proof (length_labelled b data). lia.
    - unfold entry. rewrite Hin. unfold TF.INT32_MAX. lia. }
  split; eapply Hb; eassumption.
Qed.

Lemma gather_rows_in_bounds (dev : device) (t : list Z) (batch : list Z) :
  dev = GPU \/ Forall (fun v => 0 <= v < Z.of_nat (length t)) batch ->
  TF.gather_rows dev t batch = OK (map (entry t) batch).
Proof.
  induction batch as [| v l IH]; intros Hok; [reflexivity |].
  cbn [TF.gather_rows map]. rewrite IH.
  - assert (He : entry t v
                 = if TF.in_bounds (length t) v then nth (Z.to_nat v) t 0 else 0)
      by reflexivity.
    rewrite He. destruct (TF.in_bounds (length t) v) eqn:Hin; [reflexivity |].
    destruct Hok as [-> | Hall]; [reflexivity |].
    inversion Hall as [| ? ? Hv _]. apply in_bounds_spec in Hv. congruence.
  - destruct Hok as [-> | Hall]; [now left | right; now inversion Hall].
Qed.

(** Every lookup is answered on GPU when the table has entries, and on
    either device when every index is within the table. *)
Lemma gather_nd_in_bounds (dev : device) (t : list Z) (batch : list Z) :
  (dev = GPU /\ t <> []) \/ Forall (fun v => 0 <= v < Z.of_nat (length t)) batch ->
  TF.gather_nd dev t batch = OK (map (entry t) batch).
Proof.
  intros [[-> Ht] | Hall].
  - rewrite gather_nd_rows by assumption. apply gather_rows_in_bounds. now left.
  - destruct batch as [| v l]; [apply gather_nd_nil |].
    rewrite gather_nd_rows; [apply gather_rows_in_bounds; now right |].
    inversion Hall as [| ? ? Hv _]. intros ->. cbn in Hv. lia.
Qed.


(** No entry can be asked of an empty table. *)
Lemma gather_nd_empty (dev : device) (v : Z) (batch : list Z) :
  TF.gather_nd dev [] (v :: batch) = Raise InvalidArgumentError.
Proof. reflexivity. Qed.

Lemma concat3_map {A} (f g : A -> TF.float32)
  (h : TF.float32 * TF.float32 -> TF.float32) (l : list A) :
  TF.concat3 (map f l) (map g l) (map h (combine (map f l) (map g l)))
  = map (fun v => (f v, g v, h (f v, g v))) l.
Proof.
  induction l as [| x t IH]; cbn; [reflexivity | now rewrite IH].
Qed.

Lemma call_tensors (dev : device) (p n : list Z) (batch : list Z) :
  let enc := {| positive_frequency_lookup := Tensor p;
                negative_frequency_lookup := Tensor n |} in
  call dev batch enc =
  match TF.gather_nd dev p batch with
  | Raise e => (Raise e, enc)
  | OK pg =>
      match TF.gather_nd dev n batch with
      | Raise e => (Raise e, enc)
      | OK ng =>
          (OK (TF.concat3 (map TF.cast_float32 pg) (map TF.cast_float32 ng)
                 (map (fun pn => TF.fdiv (fst pn) (TF.fadd (fst pn) (snd pn)))
                      (combine (map TF.cast_float32 pg) (map TF.cast_float32 ng)))),
           enc)
      end
  end.
Proof.
  intros enc. unfold call, lookups_unset, bind, lift, ret.
  cbn. unfold TF.cast_int64. rewrite map_id.
  destruct (TF.gather_nd dev p batch) as [pg | e]; [| reflexivity].
  destruct (TF.gather_nd dev n batch) as [ng | e]; reflexivity.
Qed.

(** [call] on two tables, wherever every lookup is answered. *)
Lemma call_fitted (dev : device) (p n : list Z) (batch : list Z) :
  length p = length n ->
  (dev = GPU /\ p <> []) \/ Forall (fun v => 0 <= v < Z.of_nat (length p)) batch ->
  let enc := {| positive_frequency_lookup := Tensor p;
                negative_frequency_lookup := Tensor n |} in
  call dev batch enc
  = (OK (map (fun v => triple_of (entry p v) (entry n v)) batch), enc).
Proof.
  intros Hlen Hok enc. subst enc. rewrite call_tensors.
  assert (Hok' : (dev = GPU /\ n <> []) \/
                 Forall (fun v => 0 <= v < Z.of_nat (length n)) batch).
  { rewrite <- Hlen. destruct Hok as [[Hdev Hp] | Hall]; [left | now right].
    split; [assumption |]. intros ->. destruct p; [congruence | discriminate]. }
  rewrite !gather_nd_in_bounds by assumption.
  rewrite !map_map.
  rewrite (concat3_map (fun v => TF.cast_float32 (entry p v))
             (fun v => TF.cast_float32 (entry n v))).
  reflexivity.
Qed.

Lemma labelled_incl (b : bool) (data : list (Z * Z)) (x : Z) :
  In x (labelled b data) -> In x (features data).
Proof.
  unfold labelled, features. rewrite !in_map_iff.
  intros (row & Hx & Hin). apply filter_In in Hin. exists row. tauto.
Qed.

(** On CPU a table is computed exactly when every id is below the
    vocabulary size; on GPU always. *)
Lemma frequency_table_ok (dev : device) (data : list (Z * Z)) (b : bool) :
  dev = GPU \/
  Forall (fun v => v < Z.of_nat (vocabulary_size data)) (features data) ->
  exists t, frequency_table dev data b = OK t.
Proof.
  intros Hok. apply segment_sum_ones_ok. rewrite repeat_length.
  destruct Hok as [-> | Hall]; [now left | right].
  rewrite Forall_forall in *. intros x Hx. apply Hall, (labelled_incl b), Hx.
Qed.

Lemma adapt_ok (dev : device) (data : list (Z * Z)) (self : BinaryTargetEncoding) :
  Z.of_nat (length data) <= TF.INT32_MAX ->
  dev = GPU \/
  Forall (fun v => v < Z.of_nat (vocabulary_size data)) (features data) ->
  exists enc, adapt dev data self = (OK tt, enc).
Proof.
  intros Hlen Hok. rewrite adapt_eq.
  replace (_ <=? _) with true by (symmetry; now apply Z.leb_le).
  destruct (frequency_table_ok dev data true Hok) as [p ->].
  destruct (frequency_table_ok dev data false Hok) as [n ->].
  eexists. reflexivity.
Qed.

Lemma fold_max_ge (a : Z) (l : list Z) :
  a <= fold_right Z.max a l /\ forall x, In x l -> x <= fold_right Z.max a l.
Proof.
  induction l as [| y t [IHa IHl]]; cbn; [split; [lia | tauto] |].
  split; [lia |]. intros x [<- | Hx]; [lia |]. specialize (IHl x Hx). lia.
Qed.

Lemma fold_max_In (a : Z) (l : list Z) :
  fold_right Z.max a l = a \/ In (fold_right Z.max a l) l.
Proof.
  induction l as [| y t IH]; cbn; [now left |].
  destruct (Z.max_spec y (fold_right Z.max a t)) as [[_ ->] | [_ ->]].
  - destruct IH as [-> | IH]; [now left | right; now right].
  - right. now left.
Qed.

Lemma maximum_spec (l : list Z) :
  l <> [] -> In (maximum l) l /\ forall x, In x l -> x <= maximum l.
Proof.
  destruct l as [| a t]; [congruence | intros _].
  unfold maximum. cbn [hd]. split.
  - destruct (fold_max_In a (a :: t)) as [-> | H]; [now left | assumption].
  - apply fold_max_ge.
Qed.

Lemma maximum_dense (data : list (Z * Z)) (n : Z) :
  data <> [] -> dense_range data n -> maximum (features data) + 1 = n.
Proof.
  intros Hne Hd.
  assert (Hf : features data <> []) by (destruct data; [congruence | discriminate]).
  destruct (maximum_spec _ Hf) as [Hin Hge].
  apply Hd in Hin.
  assert (In (n - 1) (features data)) as Hlast by (apply Hd; lia).
  apply Hge in Hlast. lia.
Qed.

Lemma list_sum_app (l l' : list Z) : list_sum (l ++ l') = list_sum l + list_sum l'.
Proof.
  unfold list_sum. induction l as [| x t IH]; cbn; [reflexivity | rewrite IH; lia].
Qed.

Lemma list_sum_map_add {A} (f g : A -> Z) (l : list A) :
  list_sum (map (fun x => f x + g x) l) = list_sum (map f l) + list_sum (map g l).
Proof.
  unfold list_sum. induction l as [| x t IH]; cbn; [reflexivity | rewrite IH; lia].
Qed.

(** Among the indices below [n], exactly one equals an id in bounds. *)
Lemma indicator_sum (i : Z) (n : nat) :
  list_sum (map (fun j => if i =? Z.of_nat j then 1 else 0) (seq 0 n))
  = if TF.in_bounds n i then 1 else 0.
Proof.
  induction n as [| n IH].
  - cbn. unfold TF.in_bounds. destruct (0 <=? i) eqn:H0; cbn; [| reflexivity].
    replace (i <? 0) with false; [reflexivity |].
    symmetry. apply Z.ltb_ge. apply Z.leb_le in H0. lia.
  - rewrite seq_S, map_app, list_sum_app, IH. cbn [map list_sum fold_right Nat.add].
    unfold TF.in_bounds.
    destruct (Z.leb_spec 0 i), (Z.ltb_spec i (Z.of_nat n)),
      (Z.ltb_spec i (Z.of_nat (S n))), (Z.eqb_spec i (Z.of_nat n)); cbn; lia.
Qed.

Lemma occurrences_sum (ids : list Z) (n : nat) :
  list_sum (map (fun j => occurrences (Z.of_nat j) ids) (seq 0 n))
  = Z.of_nat (length (filter (TF.in_bounds n) ids)).
Proof.
  induction ids as [| i t IH].
  - cbn. induction (seq 0 n) as [| j l IHl]; [reflexivity | exact IHl].
  - rewrite (map_ext _ (fun j => (if i =? Z.of_nat j then 1 else 0)
                                  + occurrences (Z.of_nat j) t))
      by (intros j; apply occurrences_cons).
    rewrite list_sum_map_add, IH, indicator_sum. cbn [filter].
    destruct (TF.in_bounds n i); cbn [length]; lia.
Qed.

Lemma table_as_map (t : list Z) :
  t = map (fun j => entry t (Z.of_nat j)) (seq 0 (length t)).
Proof.
  apply (nth_ext _ _ 0 0).
  - now rewrite length_map, length_seq.
  - intros j Hj.
    rewrite (nth_indep (map (fun j => entry t (Z.of_nat j)) (seq 0 (length t)))
               0 (entry t (Z.of_nat 0)))
      by (now rewrite length_map, length_seq).
    rewrite (map_nth (fun j => entry t (Z.of_nat j))), seq_nth by assumption.
    unfold entry. cbn [Nat.add].
    replace (TF.in_bounds _ _) with true by (symmetry; apply in_bounds_spec; lia).
    now rewrite Nat2Z.id.
Qed.

(** The entries of a computed table add up to the number of ids that
    are within the vocabulary. *)
Lemma frequency_table_sum (dev : device) (data : list (Z * Z)) (b : bool)
  (t : list Z) :
  frequency_table dev data b = OK t ->
  Z.of_nat (length data) <= TF.INT32_MAX ->
  list_sum t
  = Z.of_nat (length (filter (TF.in_bounds (vocabulary_size data)) (labelled b data))).
Proof.
  intros Hrun Hlen.
  destruct (frequency_table_spec _ _ _ _ Hrun Hlen) as [Ht Et].
  rewrite (table_as_map t), Ht, <- occurrences_sum. f_equal.
  apply map_ext_in. intros j Hj. apply in_seq in Hj. apply Et. lia.
Qed.

Lemma filter_labelled (g : Z -> bool) (data : list (Z * Z)) :
  (length (filter g (labelled true data)) + length (filter g (labelled false data))
   = length (filter g (features data)))%nat.
Proof.
  unfold labelled, features. induction data as [| row t IH]; [reflexivity |].
  cbn [filter map]. destruct (TF.cast_bool (snd row)); cbn [Bool.eqb map filter];
    destruct (g (TF.cast_int64 (fst row))); cbn [length]; lia.
Qed.

Lemma filter_length_lt {A} (g : A -> bool) (l : list A) (x : A) :
  In x l -> g x = false -> (length (filter g l) < length l)%nat.
Proof.
  induction l as [| y t IH]; intros Hin Hg; [inversion Hin |].
  cbn [filter length]. pose proof (filter_length_le g t).
  destruct Hin as [-> | Hin].
  - rewrite Hg. lia.
  - specialize (IH Hin Hg). destruct (g y); cbn [length]; lia.
Qed.

Lemma nth_error_map_Some {A B} (f : A -> B) (l : list A) (i : nat) (x : A) :
  nth_error l i = Some x -> nth_error (map f l) i = Some (f x).
Proof.
  intros H. rewrite nth_error_map, H. reflexivity.
Qed.

Lemma gather_rows_raises (dev : device) (t l : list Z) (e : exn) :
  TF.gather_rows dev t l = Raise e -> e = InvalidArgumentError.
Proof.
  induction l as [| i l' IH]; cbn; [discriminate |].
  destruct (TF.in_bounds (length t) i), dev;
    destruct (TF.gather_rows _ t l'); try discriminate;
    intros [= <-]; auto.
Qed.

Lemma gather_nd_raises (dev : device) (t l : list Z) (e : exn) :
  TF.gather_nd dev t l = Raise e -> e = InvalidArgumentError.
Proof.
  destruct t as [| x t'].
  - destruct l as [| i l']; [discriminate | now intros [= <-]].
  - rewrite gather_nd_rows by discriminate. apply gather_rows_raises.
Qed.

(** [call] raises its [ValueError] only when a lookup is [None]. *)
Lemma call_ValueError_inv (dev : device) (inputs : list Z)
  (self self' : BinaryTargetEncoding) :
  call dev inputs self = (Raise ValueError, self') ->
  positive_frequency_lookup self = PyNone \/
  negative_frequency_lookup self = PyNone.
Proof.
  intros H.
  destruct self as [[| | p] [| | n]];
    cbn [positive_frequency_lookup negative_frequency_lookup]; auto;
    try (cbn in H; discriminate).
  rewrite call_tensors in H.
  destruct (TF.gather_nd dev p inputs) as [pg | e] eqn:Hp.
  - destruct (TF.gather_nd dev n inputs) as [ng | e] eqn:Hn; [discriminate |].
    apply gather_nd_raises in Hn. subst e. discriminate.
  - apply gather_nd_raises in Hp. subst e. discriminate.
Qed.

Lemma triple_of_zero :
  triple_of 0 0 = (S754_zero false, S754_zero false, S754_nan).
Proof. reflexivity. Qed.

Lemma entry_out_of_bounds (t : list Z) (v : Z) :
  ~ 0 <= v < Z.of_nat (length t) -> entry t v = 0.
Proof.
  intros Hv. unfold entry.
  destruct (TF.in_bounds (length t) v) eqn:Hin; [| reflexivity].
  apply in_bounds_spec in Hin. contradiction.
Qed.

Lemma segment_sum_into_raises (dev : device) (rows : list (Z * Z)) (e : exn) :
  forall out,
    TF.segment_sum_into dev out rows = Raise e -> e = InvalidArgumentError.
Proof.
  induction rows as [| [d j] t IH]; intros out; cbn; [discriminate |].
  destruct (j <? 0); [apply IH |].
  destruct (j <? Z.of_nat (length out)); [apply IH |].
  destruct dev; [now intros [= <-] | apply IH].
Qed.

(** ** The claims *)

(** C1.  Count conservation: when the feature values of the fit input
    are exactly the integers of a range [[0, n)], then in the fitted
    state the positive and the negative frequency of every index of
    the range add up to the number of rows with that index, and the sum
    is strictly positive for every index present in the input.  The fit
    goes through for every such input of at most [INT32_MAX] rows. *)
Theorem count_conservation (dev : device) (data : list (Z * Z)) (n : Z)
  (self : BinaryTargetEncoding) :
  dense_range data n ->
  (Z.of_nat (length data) <= TF.INT32_MAX ->
   exists enc, adapt dev data self = (OK tt, enc)) /\
  (forall enc, adapt dev data self = (OK tt, enc) ->
   exists pos neg,
     enc = {| positive_frequency_lookup := Tensor pos;
              negative_frequency_lookup := Tensor neg |} /\
     (forall v, 0 <= v < n ->
        entry pos v + entry neg v = occurrences v (features data)) /\
     (forall v, In v (features data) -> 0 < entry pos v + entry neg v)).
Proof.
  intros Hd.
  assert (Hsize : forall v, 0 <= v < n -> Z.of_nat (vocabulary_size data) = n).
  { intros v Hv. rewrite (vocabulary_size_dense data n Hd). lia. }
  split.
  - intros Hlen. apply adapt_ok; [assumption | right].
    apply Forall_forall. intros v Hv. apply Hd in Hv.
    rewrite (Hsize v Hv). lia.
  - intros enc Hrun. apply adapt_ok_inv in Hrun.
    destruct Hrun as (Hlen & p & q & Hp & Hq & ->).
    destruct (frequency_table_spec _ _ _ _ Hp Hlen) as [_ Ep].
    destruct (frequency_table_spec _ _ _ _ Hq Hlen) as [_ Eq].
    assert (Hcons : forall v, 0 <= v < n ->
              entry p v + entry q v = occurrences v (features data)).
    { intros v Hv. rewrite Ep, Eq by (rewrite (Hsize v Hv); lia).
      apply occurrences_labelled. }
    exists p, q. split; [reflexivity |]. split; [exact Hcons |].
    intros v Hv. rewrite Hcons by (now apply Hd). now apply occurrences_pos.
Qed.

(** C2.  The example's own test: fitting on the 19 pairs gives the
    tables [6; 4; 1] and [0; 3; 5], and encoding [0; 1; 2] gives the
    triples (6, 0, 1), (4, 3, 4/7) and (1, 5, 1/6), the two proper
    fractions rounded to binary32 (within half a unit in the last
    place). *)
Theorem concrete_scenario (dev : device) :
  let enc := {| positive_frequency_lookup := Tensor [6; 4; 1];
                negative_frequency_lookup := Tensor [0; 3; 5] |} in
  let six := S754_finite false 12582912 (-21) in
  let four := S754_finite false 8388608 (-21) in
  let three := S754_finite false 12582912 (-22) in
  let one := S754_finite false 8388608 (-23) in
  let five := S754_finite false 10485760 (-21) in
  let four_sevenths := S754_finite false 9586981 (-24) in
  let one_sixth := S754_finite false 11184811 (-26) in
  length test_pairs = 19%nat /\
  rows_of_pairs test_pairs = test_data /\
  adapt dev (rows_of_pairs test_pairs) init = (OK tt, enc) /\
  call dev [0; 1; 2] enc
  = (OK [ (six, S754_zero false, one);
          (four, three, four_sevenths);
          (one, five, one_sixth) ], enc) /\
  has_value six 6 /\ has_value four 4 /\ has_value three 3 /\
  has_value one 1 /\ has_value five 5 /\
  within four_sevenths (4 # 7) (1 # 2 ^ 25) /\
  within one_sixth (1 # 6) (1 # 2 ^ 27).
Proof.
  cbv zeta.
  assert (Hv : forall x q q', F2Q x = Some q' -> Qeq_bool q' q = true -> has_value x q).
  { intros x q q' Hx Hq. exists q'. split; [exact Hx | now apply Qeq_bool_iff]. }
  assert (Hw : forall x q eps q', F2Q x = Some q' ->
                 Qle_bool (Qabs (q' - q)) eps = true -> within x q eps).
  { intros x q eps q' Hx Hq. exists q'. split; [exact Hx | now apply Qle_bool_iff]. }
  split; [reflexivity |]. split; [reflexivity |].
  split; [destruct dev; vm_compute; reflexivity |].
  split; [destruct dev; vm_compute; reflexivity |].
  repeat split;
    solve [ eapply Hv; [reflexivity | vm_compute; reflexivity]
          | eapply Hw; [reflexivity | vm_compute; reflexivity] ].
Qed.


(** C4, on the code.  A freshly constructed encoder has no lookup
    attribute at all, so [call] fails reading it, before the test
    against [None] that raises [ValueError]; after [reset_state]
    that [ValueError] is raised. *)
Theorem call_on_unfit_encoder (dev : device) (inputs : list Z) :
  call dev inputs init = (Raise AttributeError, init) /\
  forall self,
    call dev inputs (snd (reset_state self))
    = (Raise ValueError, snd (reset_state self)).
Proof.
  split; [reflexivity | intros self; reflexivity].
Qed.

(** C5.  Order independence: fitting on a permutation of the input
    gives the same outcome, hence the same two lookup tables. *)
Theorem adapt_order_independent (dev : device) (data data' : list (Z * Z))
  (self : BinaryTargetEncoding) :
  Permutation data data' -> adapt dev data self = adapt dev data' self.
Proof.
  intros Hperm. rewrite !adapt_eq.
  rewrite (Permutation_length Hperm).
  assert (Ht : forall b, frequency_table dev data b = frequency_table dev data' b).
  { intros b. unfold frequency_table.
    rewrite (vocabulary_size_perm _ _ Hperm).
    apply segment_sum_into_perm, Permutation_map, labelled_perm, Hperm. }
  now rewrite !Ht.
Qed.

(** C6.  Re-fitting: the outcome of a fit does not depend on the state
    it starts from, except that a fit that raises leaves that state as
    it was; in particular fitting twice on the same input gives the
    state of fitting once. *)
Theorem adapt_replaces_state (dev : device) (data : list (Z * Z))
  (prior self : BinaryTargetEncoding) :
  adapt dev data prior
  = match adapt dev data self with
    | (OK u, enc) => (OK u, enc)
    | (Raise e, _) => (Raise e, prior)
    end
  /\ adapt dev data (snd (adapt dev data self)) = adapt dev data self.
Proof.
  rewrite !adapt_eq.
  destruct (Z.of_nat (length data) <=? TF.INT32_MAX);
    [| split; reflexivity].
  destruct (frequency_table dev data true) as [p | e]; [| split; reflexivity].
  destruct (frequency_table dev data false) as [n | e]; split; reflexivity.
Qed.

(** C7, as the code has it.  After a successful fit both tables have as
    many entries as there are distinct feature values in the input;
    when the input is not empty and its values are exactly a range
    [[0, n)], that number is the largest index plus one. *)
Theorem vocabulary_size_is_distinct_count (dev : device) (data : list (Z * Z))
  (self enc : BinaryTargetEncoding) :
  adapt dev data self = (OK tt, enc) ->
  exists pos neg,
    enc = {| positive_frequency_lookup := Tensor pos;
             negative_frequency_lookup := Tensor neg |} /\
    length pos = vocabulary_size data /\
    length neg = vocabulary_size data /\
    vocabulary_size data = length (nodup Z.eq_dec (features data)) /\
    (forall n, data <> [] -> dense_range data n ->
       Z.of_nat (vocabulary_size data) = maximum (features data) + 1).
Proof.
  intros Hrun. apply adapt_ok_inv in Hrun.
  destruct Hrun as (Hlen & p & q & Hp & Hq & ->).
  destruct (frequency_table_spec _ _ _ _ Hp Hlen) as [Lp _].
  destruct (frequency_table_spec _ _ _ _ Hq Hlen) as [Lq _].
  exists p, q. repeat split; try assumption.
  - apply vocabulary_size_nodup.
  - intros n Hne Hd. rewrite (maximum_dense data n Hne Hd).
    rewrite (vocabulary_size_dense data n Hd).
    assert (In (maximum (features data)) (features data)) as Hin.
    { apply maximum_spec. destruct data; [congruence | discriminate]. }
    apply Hd in Hin. lia.
Qed.

(** C7 fails as stated: fitted on the single row [(5, 1)] the tables
    have one entry, while the largest index plus one is 6. *)
Lemma vocabulary_size_not_max_plus_one :
  let data := [(5, 1)] in
  data <> [] /\
  adapt GPU data init
  = (OK tt, {| positive_frequency_lookup := Tensor [0];
               negative_frequency_lookup := Tensor [0] |}) /\
  vocabulary_size data = 1%nat /\
  maximum (features data) + 1 = 6 /\
  Z.of_nat (vocabulary_size data) <> maximum (features data) + 1.
Proof.
  cbv zeta. split; [discriminate |]. split; [reflexivity |].
  split; [reflexivity |]. split; [reflexivity |]. cbn. lia.
Qed.



(** C9.  On a fitted encoder, an index of the vocabulary whose two
    frequencies add up to zero makes the divisor [+0]; [call] still
    returns, and the triple of that index is (0, 0, NaN). *)
Theorem zero_frequency_gives_nan (dev : device) (enc : BinaryTargetEncoding)
  (batch : list Z) (v : Z) :
  fitted enc ->
  Forall (fun v => 0 <= v < fitted_size enc) batch ->
  let pos := tensor_of (positive_frequency_lookup enc) in
  let neg := tensor_of (negative_frequency_lookup enc) in
  entry pos v + entry neg v = 0 ->
  TF.fadd (TF.cast_float32 (entry pos v)) (TF.cast_float32 (entry neg v))
  = S754_zero false /\
  exists out,
    call dev batch enc = (OK out, enc) /\
    forall i, nth_error batch i = Some v ->
      nth_error out i = Some (S754_zero false, S754_zero false, S754_nan).
Proof.
  intros Hfit Hin.
  destruct (fitted_tables enc Hfit) as (p & n & -> & Hlen & Hp & Hn).
  unfold fitted_size in Hin.
  cbn [positive_frequency_lookup negative_frequency_lookup tensor_of] in *.
  intros Hzero.
  assert (Hp0 : entry p v = 0) by (specialize (Hp v); specialize (Hn v); lia).
  assert (Hn0 : entry n v = 0) by (specialize (Hp v); specialize (Hn v); lia).
  rewrite Hp0, Hn0. split; [reflexivity |].
  eexists. split; [apply call_fitted; [assumption | now right] |].
  intros i Hi. rewrite (nth_error_map_Some _ _ _ _ Hi), Hp0, Hn0.
  now rewrite triple_of_zero.
Qed.

(** C10, as the code has it.  When some feature value of the input is
    not below the number of distinct values, the fit fails on CPU with
    [InvalidArgumentError] and leaves the encoder as it was.  On GPU
    it goes through (for an input of at most [INT32_MAX] rows): the
    indices below the vocabulary size keep their counts, the rows
    with any other index are counted in no entry of either table, and
    the offending index has rows but no frequency. *)
Theorem sparse_indices (data : list (Z * Z)) (self : BinaryTargetEncoding) (v : Z) :
  In v (features data) ->
  Z.of_nat (vocabulary_size data) <= v ->
  adapt CPU data self = (Raise InvalidArgumentError, self) /\
  (Z.of_nat (length data) <= TF.INT32_MAX ->
   exists pos neg,
     adapt GPU data self
     = (OK tt, {| positive_frequency_lookup := Tensor pos;
                  negative_frequency_lookup := Tensor neg |}) /\
     (forall u, 0 <= u < Z.of_nat (vocabulary_size data) ->
        entry pos u + entry neg u = occurrences u (features data)) /\
     list_sum pos + list_sum neg
     = Z.of_nat (length (filter (TF.in_bounds (vocabulary_size data))
                                (features data))) /\
     list_sum pos + list_sum neg < Z.of_nat (length data) /\
     entry pos v + entry neg v = 0 /\
     0 < occurrences v (features data)).
Proof.
  intros Hin Hv. split.
  - rewrite adapt_eq.
    destruct (Z.of_nat (length data) <=? TF.INT32_MAX); [| reflexivity].
    assert (Hlab : In v (labelled true data) \/ In v (labelled false data)).
    { rewrite !occurrences_pos.
      apply occurrences_pos in Hin. rewrite <- occurrences_labelled in Hin.
      pose proof (occurrences_bounds v (labelled true data)).
      pose proof (occurrences_bounds v (labelled false data)). lia. }
    assert (Hfail : forall b, In v (labelled b data) ->
              frequency_table CPU data b = Raise InvalidArgumentError).
    { intros b Hb. apply segment_sum_ones_fail. rewrite repeat_length.
      apply Exists_exists. now exists v. }
    destruct Hlab as [Hb | Hb].
    + now rewrite (Hfail true Hb).
    + rewrite (Hfail false Hb).
      destruct (frequency_table CPU data true) as [p | e] eqn:Hp; [reflexivity |].
      apply segment_sum_into_raises in Hp. now subst e.
  - intros Hlen.
    destruct (adapt_ok GPU data self Hlen (or_introl eq_refl)) as [enc Hrun].
    destruct (adapt_ok_inv _ _ _ _ Hrun) as (_ & p & n & Hp & Hn & ->).
    destruct (frequency_table_spec _ _ _ _ Hp Hlen) as [Lp Ep].
    destruct (frequency_table_spec _ _ _ _ Hn Hlen) as [Ln En].
    assert (Hsum : list_sum p + list_sum n
                   = Z.of_nat (length (filter (TF.in_bounds (vocabulary_size data))
                                              (features data)))).
    { rewrite (frequency_table_sum _ _ _ _ Hp Hlen),
        (frequency_table_sum _ _ _ _ Hn Hlen), <- Nat2Z.inj_add.
      now rewrite filter_labelled. }
    exists p, n. split; [exact Hrun |].
    split; [intros u Hu; rewrite Ep, En by lia; apply occurrences_labelled |].
    split; [exact Hsum |]. split; [| split].
    + rewrite Hsum.
      assert (Hf : TF.in_bounds (vocabulary_size data) v = false).
      { destruct (TF.in_bounds _ v) eqn:Hb; [| reflexivity].
        apply in_bounds_spec in Hb. lia. }
      pose proof (filter_length_lt _ _ _ Hin Hf) as Hlt.
      unfold features in Hlt at 2. rewrite length_map in Hlt. lia.
    + rewrite !entry_out_of_bounds by lia. reflexivity.
    + now apply occurrences_pos.
Qed.

(** C10 fails as stated: on CPU the fit on [(0, 1); (2, 0)], whose
    index 2 is not below the two distinct values, raises. *)
Lemma sparse_fit_fails_on_CPU :
  let data := [(0, 1); (2, 0)] in
  vocabulary_size data = 2%nat /\
  In 2 (features data) /\
  adapt CPU data init = (Raise InvalidArgumentError, init).
Proof.
  cbv zeta. split; [reflexivity |]. split; [cbn; auto | reflexivity].
Qed.

(** ** The theorems at concrete inputs *)

Lemma test_data_dense : dense_range test_data 3.
Proof.
  unfold dense_range. intros v. cbn. lia.
Defined.

Lemma test_encoder_fitted :
  fitted {| positive_frequency_lookup := Tensor [6; 4; 1];
            negative_frequency_lookup := Tensor [0; 3; 5] |}.
Proof.
  exists CPU, test_data, init. reflexivity.
Defined.

Lemma count_conservation_witness :
  dense_range test_data 3 /\
  forall v, 0 <= v < 3 ->
    entry [6; 4; 1] v + entry [0; 3; 5] v = occurrences v (features test_data).
Proof.
  split; [exact test_data_dense |].
  destruct (count_conservation CPU test_data 3 init test_data_dense) as [_ H].
  destruct (H _ eq_refl) as (pos & neg & Heq & Hc & _).
  injection Heq as <- <-. exact Hc.
Defined.


Lemma adapt_order_independent_witness :
  Permutation [(0, 1); (1, 0)] [(1, 0); (0, 1)] /\
  adapt CPU [(0, 1); (1, 0)] init = adapt CPU [(1, 0); (0, 1)] init.
Proof.
  split; [apply perm_swap |].
  apply adapt_order_independent, perm_swap.
Defined.

Lemma vocabulary_size_is_distinct_count_witness :
  adapt CPU test_data init
  = (OK tt, {| positive_frequency_lookup := Tensor [6; 4; 1];
               negative_frequency_lookup := Tensor [0; 3; 5] |}) /\
  vocabulary_size test_data = length (nodup Z.eq_dec (features test_data)) /\
  Z.of_nat (vocabulary_size test_data) = maximum (features test_data) + 1.
Proof.
  split; [reflexivity |].
  destruct (vocabulary_size_is_distinct_count CPU test_data init _ eq_refl)
    as (pos & neg & _ & _ & _ & Hn & Hmax).
  split; [exact Hn |].
  apply (Hmax 3); [discriminate | exact test_data_dense].
Defined.


Lemma zero_frequency_gives_nan_witness :
  let enc := {| positive_frequency_lookup := Tensor [1; 0];
                negative_frequency_lookup := Tensor [0; 0] |} in
  fitted enc /\
  Forall (fun v => 0 <= v < fitted_size enc) [0; 1] /\
  entry [1; 0] 1 + entry [0; 0] 1 = 0 /\
  exists out,
    call GPU [0; 1] enc = (OK out, enc) /\
    nth_error out 1 = Some (S754_zero false, S754_zero false, S754_nan).
Proof.
  cbv zeta.
  assert (Hfit : fitted {| positive_frequency_lookup := Tensor [1; 0];
                           negative_frequency_lookup := Tensor [0; 0] |}).
  { exists GPU, [(0, 1); (5, 0)], init. reflexivity. }
  assert (Hin : Forall (fun v => 0 <= v < fitted_size
                         {| positive_frequency_lookup := Tensor [1; 0];
                            negative_frequency_lookup := Tensor [0; 0] |})
                       [0; 1]).
  { repeat constructor; unfold fitted_size; cbn; lia. }
  assert (Hzero : entry [1; 0] 1 + entry [0; 0] 1 = 0) by reflexivity.
  split; [exact Hfit |]. split; [exact Hin |]. split; [exact Hzero |].
  destruct (zero_frequency_gives_nan GPU _ [0; 1] 1 Hfit Hin Hzero)
    as (_ & out & Hcall & Hnth).
  exists out. split; [exact Hcall | apply Hnth; reflexivity].
Defined.

Lemma sparse_indices_witness :
  In 2 (features [(0, 1); (2, 0)]) /\
  Z.of_nat (vocabulary_size [(0, 1); (2, 0)]) <= 2 /\
  adapt CPU [(0, 1); (2, 0)] init = (Raise InvalidArgumentError, init).
Proof.
  assert (Hin : In 2 (features [(0, 1); (2, 0)])) by (cbn; lia).
  assert (Hv : Z.of_nat (vocabulary_size [(0, 1); (2, 0)]) <= 2) by (cbn; lia).
  split; [exact Hin |]. split; [exact Hv |].
  exact (proj1 (sparse_indices _ init 2 Hin Hv)).
Defined.

(** ** The fit and the encoding, further *)

(** On CPU a segment id that reaches the number of segments fails the
    whole table. *)
Lemma frequency_table_CPU_fails (data : list (Z * Z)) (b : bool) (v : Z) :
  In v (labelled b data) -> Z.of_nat (vocabulary_size data) <= v ->
  frequency_table CPU data b = Raise InvalidArgumentError.
Proof.
  intros Hin Hv. apply segment_sum_ones_fail. rewrite repeat_length.
  apply Exists_exists. now exists v.
Qed.

Lemma features_labelled (data : list (Z * Z)) (v : Z) :
  In v (features data) ->
  In v (labelled true data) \/ In v (labelled false data).
Proof.
  intros Hin. rewrite !occurrences_pos.
  apply occurrences_pos in Hin. rewrite <- occurrences_labelled in Hin.
  pose proof (occurrences_bounds v (labelled true data)).
  pose proof (occurrences_bounds v (labelled false data)). lia.
Qed.

Lemma adapt_CPU_fails (data : list (Z * Z)) (self : BinaryTargetEncoding) (v : Z) :
  In v (features data) -> Z.of_nat (vocabulary_size data) <= v ->
  adapt CPU data self = (Raise InvalidArgumentError, self).
Proof.
  intros Hin Hv. rewrite adapt_eq.
  destruct (Z.of_nat (length data) <=? TF.INT32_MAX); [| reflexivity].
  destruct (features_labelled data v Hin) as [Hb | Hb].
  - now rewrite (frequency_table_CPU_fails data true v Hb Hv).
  - rewrite (frequency_table_CPU_fails data false v Hb Hv).
    destruct (frequency_table CPU data true) as [p | e] eqn:Hp; [reflexivity |].
    apply segment_sum_into_raises in Hp. now subst e.
Qed.

Lemma adapt_raises (dev : device) (data : list (Z * Z))
  (self self' : BinaryTargetEncoding) (e : exn) :
  adapt dev data self = (Raise e, self') ->
  e = InvalidArgumentError /\ self' = self.
Proof.
  rewrite adapt_eq.
  destruct (Z.of_nat (length data) <=? TF.INT32_MAX); [| now intros [= <- <-]].
  destruct (frequency_table dev data true) as [p | e1] eqn:Hp.
  - destruct (frequency_table dev data false) as [n | e2] eqn:Hn; [discriminate |].
    intros [= <- <-]. apply segment_sum_into_raises in Hn. auto.
  - intros [= <- <-]. apply segment_sum_into_raises in Hp. auto.
Qed.

Lemma adapt_ok_inv_CPU (data : list (Z * Z)) (self : BinaryTargetEncoding) :
  (exists enc, adapt CPU data self = (OK tt, enc)) ->
  Z.of_nat (length data) <= TF.INT32_MAX /\
  Forall (fun v => v < Z.of_nat (vocabulary_size data)) (features data).
Proof.
  intros [enc Hrun]. split; [now apply adapt_ok_inv in Hrun |].
  apply Forall_forall. intros v Hv.
  destruct (Z.lt_ge_cases v (Z.of_nat (vocabulary_size data))) as [| Hge];
    [assumption |].
  rewrite (adapt_CPU_fails data self v Hv Hge) in Hrun. discriminate.
Qed.

(** X1.  The exact failure condition of [adapt] on CPU. *)
Theorem adapt_CPU_succeeds_iff (data : list (Z * Z)) (self : BinaryTargetEncoding) :
  ((exists enc, adapt CPU data self = (OK tt, enc)) <->
   Z.of_nat (length data) <= TF.INT32_MAX /\
   Forall (fun v => v < Z.of_nat (vocabulary_size data)) (features data)) /\
  ((exists enc, adapt CPU data self = (OK tt, enc)) \/
   adapt CPU data self = (Raise InvalidArgumentError, self)).
Proof.
  split.
  - split.
    + apply adapt_ok_inv_CPU.
    + intros [Hlen Hall]. apply adapt_ok; auto.
  - destruct (adapt CPU data self) as [[[] | e] s] eqn:Hrun.
    + left. now exists s.
    + right. apply adapt_raises in Hrun. now destruct Hrun as [-> ->].
Qed.

Lemma dense_of_bounded (data : list (Z * Z)) :
  Forall (fun v => 0 <= v < Z.of_nat (vocabulary_size data)) (features data) ->
  dense_range data (Z.of_nat (vocabulary_size data)).
Proof.
  intros Hall v. split; [rewrite Forall_forall in Hall; apply Hall |].
  intros Hv.
  assert (Hperm : Permutation (nodup Z.eq_dec (features data))
                    (map Z.of_nat (seq 0 (vocabulary_size data)))).
  { apply NoDup_Permutation_bis.
    - apply NoDup_nodup.
    - rewrite length_map, length_seq, vocabulary_size_nodup. lia.
    - intros x Hx. apply nodup_In in Hx. rewrite Forall_forall in Hall.
      apply Hall in Hx. apply in_map_iff. exists (Z.to_nat x).
      rewrite in_seq. lia. }
  apply (nodup_In Z.eq_dec). apply (Permutation_in _ (Permutation_sym Hperm)).
  apply in_map_iff. exists (Z.to_nat v). rewrite in_seq. lia.
Qed.

(** X2.  With indices that are not negative, the fit goes through on CPU
    exactly for the dense zero-based inputs. *)
Theorem adapt_CPU_succeeds_iff_dense (data : list (Z * Z))
  (self : BinaryTargetEncoding) :
  Forall (fun v => 0 <= v) (features data) ->
  Z.of_nat (length data) <= TF.INT32_MAX ->
  ((exists enc, adapt CPU data self = (OK tt, enc)) <->
   exists n, dense_range data n).
Proof.
  intros Hpos Hlen. split.
  - intros Hrun. apply adapt_ok_inv_CPU in Hrun. destruct Hrun as [_ Hall].
    exists (Z.of_nat (vocabulary_size data)). apply dense_of_bounded.
    rewrite Forall_forall in *. intros v Hv.
    specialize (Hpos v Hv). specialize (Hall v Hv). lia.
  - intros [n Hd]. apply adapt_ok; [assumption | right].
    apply Forall_forall. intros v Hv.
    rewrite (vocabulary_size_dense data n Hd).
    apply Hd in Hv. lia.
Qed.

Lemma binarize_features (data : list (Z * Z)) :
  features (binarize_targets data) = features data.
Proof.
  unfold features, binarize_targets. rewrite map_map. reflexivity.
Qed.

Lemma binarize_labelled (b : bool) (data : list (Z * Z)) :
  labelled b (binarize_targets data) = labelled b data.
Proof.
  unfold labelled, features, binarize_targets.
  induction data as [| [v t] l IH]; [reflexivity |].
  cbn [map filter fst snd].
  assert (Hc : TF.cast_bool (if t =? 0 then 0 else 1) = TF.cast_bool t).
  { unfold TF.cast_bool. destruct (t =? 0); reflexivity. }
  rewrite Hc. destruct (Bool.eqb (TF.cast_bool t) b); cbn [map fst]; now rewrite IH.
Qed.

(** X3.  Only whether a label is zero matters to the fit. *)
Theorem adapt_binarize_targets (dev : device) (data : list (Z * Z))
  (self : BinaryTargetEncoding) :
  adapt dev (binarize_targets data) self = adapt dev data self.
Proof.
  rewrite !adapt_eq. unfold frequency_table, vocabulary_size.
  rewrite !binarize_labelled, binarize_features.
  unfold binarize_targets. rewrite length_map. reflexivity.
Qed.

Lemma filter_in_bounds_dense (data : list (Z * Z)) (n : Z) :
  dense_range data n ->
  filter (TF.in_bounds (vocabulary_size data)) (features data) = features data.
Proof.
  intros Hd. apply forallb_filter_id, forallb_forall. intros v Hv.
  apply in_bounds_spec. rewrite (vocabulary_size_dense data n Hd).
  apply Hd in Hv. lia.
Qed.

(** X4.  The entries of the two fitted tables add up to the numbers of
    positive and of negative rows whose index is within the
    vocabulary; together, for a dense input, to the number of rows. *)
Theorem table_totals (dev : device) (data : list (Z * Z))
  (self : BinaryTargetEncoding) (pos neg : list Z) :
  adapt dev data self
  = (OK tt, {| positive_frequency_lookup := Tensor pos;
               negative_frequency_lookup := Tensor neg |}) ->
  let within_vocabulary := TF.in_bounds (vocabulary_size data) in
  list_sum pos = Z.of_nat (length (filter within_vocabulary (labelled true data))) /\
  list_sum neg = Z.of_nat (length (filter within_vocabulary (labelled false data))) /\
  list_sum pos + list_sum neg <= Z.of_nat (length data) /\
  (forall n, dense_range data n ->
     list_sum pos = Z.of_nat (length (labelled true data)) /\
     list_sum neg = Z.of_nat (length (labelled false data)) /\
     list_sum pos + list_sum neg = Z.of_nat (length data)).
Proof.
  intros Hrun. apply adapt_ok_inv in Hrun.
  destruct Hrun as (Hlen & p & q & Hp & Hq & [= -> ->]).
  cbv zeta.
  pose proof (frequency_table_sum _ _ _ _ Hp Hlen) as Sp.
  pose proof (frequency_table_sum _ _ _ _ Hq Hlen) as Sq.
  pose proof (filter_labelled (TF.in_bounds (vocabulary_size data)) data) as Hsplit.
  pose proof (filter_length_le (TF.in_bounds (vocabulary_size data)) (features data)) as Hle.
  assert (Hf : length (features data) = length data) by apply length_map.
  split; [exact Sp |]. split; [exact Sq |]. split; [lia |].
  intros n Hd.
  pose proof (filter_in_bounds_dense data n Hd) as Hall.
  assert (Hb : forall b, filter (TF.in_bounds (vocabulary_size data)) (labelled b data)
                         = labelled b data).
  { intros b. apply forallb_filter_id, forallb_forall. intros v Hv.
    apply labelled_incl in Hv. rewrite <- Hall in Hv. now apply filter_In in Hv. }
  rewrite Hall in Hsplit. rewrite !Hb in *. lia.
Qed.

(** A finite positive float divided by itself is 1. *)
Lemma SFdiv_self (m : positive) (e : Z) :
  TF.fdiv (S754_finite false m e) (S754_finite false m e) = float32_one.
Proof.
  unfold TF.fdiv, SFdiv, SFdiv_core_binary. cbn [xorb].
  rewrite !Z.sub_diag.
  change (Z.min (fexp TF.prec TF.emax 0) 0) with (-24).
  change (0 - -24) with 24.
  cbv beta iota zeta.
  rewrite Z.shiftl_mul_pow2 by lia.
  assert (Hdiv : Z.div_eucl (Zpos m * 2 ^ 24) (Zpos m) = (2 ^ 24, 0)).
  { pose proof (Z_div_mod (Zpos m * 2 ^ 24) (Zpos m) ltac:(lia)) as H.
    destruct (Z.div_eucl (Zpos m * 2 ^ 24) (Zpos m)) as [q r].
    destruct H as [Heq Hr].
    assert (q = 2 ^ 24) by nia. subst q. f_equal. lia. }
  rewrite Hdiv.
  assert (Hloc : new_location (Zpos m) 0 = loc_Exact).
  { unfold new_location, new_location_even, new_location_odd.
    destruct (Z.even (Zpos m)); reflexivity. }
  rewrite Hloc. reflexivity.
Qed.

(** Rounding a mantissa of at least 24 bits never gives zero. *)
Lemma shr_fexp_large (m e : Z) (l : location) :
  2 ^ 23 <= m -> -125 <= e ->
  2 ^ 23 <= shr_m (fst (shr_fexp TF.prec TF.emax m e l)) /\
  -125 <= snd (shr_fexp TF.prec TF.emax m e l).
Proof.
  intros Hm He. unfold shr_fexp, shr.
  destruct m as [| p | p]; try (cbn in Hm; lia).
  pose proof (digits2_pos_bounds p) as [Dlo Dhi].
  assert (Hd : 23 < Zpos (digits2_pos p))
    by (apply (Z.pow_lt_mono_r_iff 2); lia).
  cbn [Zdigits2]. rewrite fexp_normal by lia.
  destruct (Zpos (digits2_pos p) + e - 24 - e) as [| k | k] eqn:Hk; cbn [fst snd].
  - rewrite shr_m_record_of_loc. split; lia.
  - rewrite iter_pos_nat, iter_shr_m by (rewrite shr_m_record_of_loc; lia).
    rewrite shr_m_record_of_loc, positive_nat_Z. split; [| lia].
    assert (Hpk : 0 < 2 ^ Zpos k) by (apply Z.pow_pos_nonneg; lia).
    apply Z.div_le_lower_bound; [assumption |].
    rewrite <- Z.pow_add_r by lia.
    replace (Zpos k + 23) with (Zpos (digits2_pos p) - 1) by lia. exact Dlo.
  - rewrite shr_m_record_of_loc. split; lia.
Qed.

Lemma binary_round_aux_nonzero (m e : Z) (l : location) (s : bool) :
  2 ^ 23 <= m -> -125 <= e ->
  binary_round_aux TF.prec TF.emax false m e l <> S754_zero s.
Proof.
  intros Hm He. unfold binary_round_aux.
  pose proof (shr_fexp_large m e l Hm He) as [H1 H1e].
  destruct (shr_fexp TF.prec TF.emax m e l) as [mrs' e']. cbn [fst snd] in *.
  pose proof (round_nearest_even_range (shr_m mrs') (loc_of_shr_record mrs')) as Hr.
  pose proof (shr_fexp_large (round_nearest_even (shr_m mrs') (loc_of_shr_record mrs'))
                e' loc_Exact ltac:(lia) H1e) as [H2 _].
  destruct (shr_fexp TF.prec TF.emax _ e' loc_Exact) as [mrs'' e'']. cbn [fst snd] in *.
  destruct (shr_m mrs'') as [| p | p]; try (cbn in H2; lia).
  destruct (e'' <=? TF.emax - TF.prec); discriminate.
Qed.

Lemma SFdiv_nonzero (m1 : positive) (e1 : Z) (m2 : positive) (e2 : Z) (s : bool) :
  Zpos (digits2_pos m1) = 24 -> Zpos (digits2_pos m2) = 24 ->
  -100 <= e1 - e2 ->
  TF.fdiv (S754_finite false m1 e1) (S754_finite false m2 e2) <> S754_zero s.
Proof.
  intros Hd1 Hd2 He. unfold TF.fdiv, SFdiv, SFdiv_core_binary. cbn [xorb Zdigits2].
  rewrite Hd1, Hd2.
  replace (24 + e1 - (24 + e2)) with (e1 - e2) by lia.
  rewrite fexp_normal by lia.
  replace (Z.min (e1 - e2 - 24) (e1 - e2)) with (e1 - e2 - 24) by lia.
  replace (e1 - e2 - (e1 - e2 - 24)) with 24 by lia.
  cbv beta iota zeta. rewrite Z.shiftl_mul_pow2 by lia.
  pose proof (digits2_pos_bounds m1) as [Lo1 _]. rewrite Hd1 in Lo1.
  pose proof (digits2_pos_bounds m2) as [_ Hi2]. rewrite Hd2 in Hi2.
  pose proof (Z_div_mod (Zpos m1 * 2 ^ 24) (Zpos m2) ltac:(lia)) as Hdm.
  destruct (Z.div_eucl (Zpos m1 * 2 ^ 24) (Zpos m2)) as [q r].
  destruct Hdm as [Heq Hr].
  apply binary_round_aux_nonzero; [| lia].
  change (24 - 1) with 23 in Lo1.
  assert (2 ^ 23 * Zpos m2 <= Zpos m1 * 2 ^ 24) by nia.
  assert (2 ^ 23 - 1 < q); [| lia].
  apply Z.nle_gt. intros Hq. nia.
Qed.

(** The sum of two positive normal floats is a positive normal float. *)
Lemma SFadd_normal (mP : positive) (eP : Z) (mN : positive) (eN : Z) :
  Zpos (digits2_pos mP) = 24 -> Zpos (digits2_pos mN) = 24 ->
  -100 <= eP <= 100 -> -100 <= eN <= 100 ->
  exists ms es,
    SFadd TF.prec TF.emax (S754_finite false mP eP) (S754_finite false mN eN)
    = S754_finite false ms es /\
    Zpos (digits2_pos ms) = 24 /\ es <= Z.max eP eN + 2.
Proof.
  intros HdP HdN HeP HeN.
  pose proof (digits2_pos_bounds mP) as [Plo Phi]. rewrite HdP in Plo, Phi.
  pose proof (digits2_pos_bounds mN) as [Nlo Nhi]. rewrite HdN in Nlo, Nhi.
  unfold SFadd. cbn [cond_Zopp].
  set (ez := Z.min eP eN).
  pose proof (shl_align_value mP eP ez ltac:(subst ez; lia)) as HvP.
  pose proof (shl_align_value mN eN ez ltac:(subst ez; lia)) as HvN.
  set (a := fst (shl_align mP eP ez)) in *.
  set (b := fst (shl_align mN eN ez)) in *.
  cbn [Z.add binary_normalize].
  set (M := (a + b)%positive).
  assert (HM : Zpos M = Zpos mP * 2 ^ (eP - ez) + Zpos mN * 2 ^ (eN - ez)).
  { subst M. rewrite Pos2Z.inj_add. lia. }
  assert (HpP : 0 < 2 ^ (eP - ez)) by (apply Z.pow_pos_nonneg; subst ez; lia).
  assert (HpN : 0 < 2 ^ (eN - ez)) by (apply Z.pow_pos_nonneg; subst ez; lia).
  pose proof (digits2_pos_bounds M) as [Mlo Mhi].
  set (d := Zpos (digits2_pos M)) in *.
  assert (Hdhi : d + ez <= 25 + Z.max eP eN).
  { assert (d - 1 < 25 + Z.max eP eN - ez); [| lia].
    apply (Z.pow_lt_mono_r_iff 2); [lia | subst ez; lia |].
    eapply Z.le_lt_trans; [exact Mlo |].
    replace (25 + Z.max eP eN - ez) with (1 + (24 + (Z.max eP eN - ez))) by lia.
    rewrite (Z.pow_add_r 2 1), (Z.pow_add_r 2 24) by (subst ez; lia).
    assert (2 ^ (eP - ez) <= 2 ^ (Z.max eP eN - ez))
      by (apply Z.pow_le_mono_r; subst ez; lia).
    assert (2 ^ (eN - ez) <= 2 ^ (Z.max eP eN - ez))
      by (apply Z.pow_le_mono_r; subst ez; lia).
    change (2 ^ 1) with 2. nia. }
  destruct (binary_round_normal M ez) as (ms & es & Hr & Hms & Hes & _);
    [subst ez; lia | fold d; lia |].
  fold d in Hes. exists ms, es. repeat split; try assumption. lia.
Qed.

(** The quotient [call] computes is not zero once the positive
    frequency is not. *)
Lemma ratio_nonzero (p n : Z) (s : bool) :
  0 < p <= TF.INT32_MAX -> 0 <= n <= TF.INT32_MAX ->
  TF.fdiv (TF.cast_float32 p) (TF.fadd (TF.cast_float32 p) (TF.cast_float32 n))
  <> S754_zero s.
Proof.
  intros Hp Hn.
  destruct (cast_float32_pos p Hp) as (mP & eP & -> & HdP & HeP).
  destruct (Z.eq_dec n 0) as [-> | Hn0].
  - change (TF.cast_float32 0) with (S754_zero false).
    unfold TF.fadd. cbn [SFadd]. rewrite SFdiv_self. discriminate.
  - destruct (cast_float32_pos n) as (mN & eN & -> & HdN & HeN); [lia |].
    destruct (SFadd_normal mP eP mN eN) as (ms & es & Hs & Hds & Hes); try lia.
    unfold TF.fadd. rewrite Hs. apply SFdiv_nonzero; try assumption. lia.
Qed.

Lemma F2Q_positive (x : TF.float32) :
  in_unit_interval x -> (forall s, x <> S754_zero s) ->
  exists q, F2Q x = Some q /\ (0 < q <= 1)%Q.
Proof.
  intros Hx Hnz. destruct (in_unit_interval_F2Q x Hx) as (q & Hq & H0 & H1).
  exists q. split; [assumption |]. split; [| assumption].
  destruct x as [s | | | [|] m e]; cbn [in_unit_interval] in Hx; try contradiction.
  - exfalso. now apply (Hnz s).
  - destruct Hx as [He _].
    destruct e as [| k | k]; [| lia |]; cbn in Hq; injection Hq as <-;
      unfold Qlt, inject_Z; cbn [Qnum Qden]; lia.
Qed.

Lemma ratio_zero_numerator (n : Z) :
  0 < n <= TF.INT32_MAX ->
  TF.fdiv (TF.cast_float32 0) (TF.fadd (TF.cast_float32 0) (TF.cast_float32 n))
  = S754_zero false.
Proof.
  intros Hn. destruct (cast_float32_pos n Hn) as (mN & eN & -> & _).
  reflexivity.
Qed.

Lemma ratio_zero_denominator (p : Z) :
  0 < p <= TF.INT32_MAX ->
  TF.fdiv (TF.cast_float32 p) (TF.fadd (TF.cast_float32 p) (TF.cast_float32 0))
  = float32_one.
Proof.
  intros Hp. destruct (cast_float32_pos p Hp) as (mP & eP & -> & _).
  change (TF.cast_float32 0) with (S754_zero false).
  unfold TF.fadd. cbn [SFadd]. apply SFdiv_self.
Qed.

(** X5.  The encoded probability at its extremes: it is [+0] exactly for
    an index without positive rows, it is 1 for an index without
    negative rows, and it is a positive number as soon as there is one
    positive row. *)
Theorem probability_extremes (dev : device) (enc : BinaryTargetEncoding)
  (batch : list Z) :
  fitted enc ->
  Forall (fun v => 0 <= v < fitted_size enc) batch ->
  let pos := tensor_of (positive_frequency_lookup enc) in
  let neg := tensor_of (negative_frequency_lookup enc) in
  exists out,
    call dev batch enc = (OK out, enc) /\
    forall i v, nth_error batch i = Some v ->
      exists p n r,
        nth_error out i = Some (p, n, r) /\
        (entry pos v + entry neg v <> 0 ->
         (entry pos v = 0 <-> r = S754_zero false)) /\
        (entry pos v <> 0 -> entry neg v = 0 -> r = float32_one) /\
        (entry pos v <> 0 -> exists q, F2Q r = Some q /\ (0 < q <= 1)%Q).
Proof.
  intros Hfit Hin.
  destruct (fitted_tables enc Hfit) as (p & n & -> & Hlen & Hp & Hn).
  unfold fitted_size in Hin.
  cbn [positive_frequency_lookup negative_frequency_lookup tensor_of] in *.
  eexists. split; [apply call_fitted; [assumption | now right] |].
  intros i v Hv.
  rewrite (nth_error_map_Some (fun v => triple_of (entry p v) (entry n v)) _ _ _ Hv).
  unfold triple_of. eexists _, _, _. split; [reflexivity |].
  specialize (Hp v). specialize (Hn v).
  split; [| split].
  - intros Hnz. split.
    + intros H0. rewrite H0. apply ratio_zero_numerator. lia.
    + intros Hr. destruct (Z.eq_dec (entry p v) 0) as [| Hne]; [assumption |].
      exfalso. revert Hr. apply ratio_nonzero; lia.
  - intros Hne H0. rewrite H0. apply ratio_zero_denominator. lia.
  - intros Hne. apply F2Q_positive.
    + apply ratio_in_unit_interval; lia.
    + intros s. apply ratio_nonzero; lia.
Qed.

Lemma gather_rows_app (dev : device) (t b1 b2 : list Z) :
  TF.gather_rows dev t (b1 ++ b2)
  = match TF.gather_rows dev t b1 with
    | Raise e => Raise e
    | OK r1 =>
        match TF.gather_rows dev t b2 with
        | Raise e => Raise e
        | OK r2 => OK (r1 ++ r2)
        end
    end.
Proof.
  induction b1 as [| i l IH]; cbn [app TF.gather_rows].
  - destruct (TF.gather_rows dev t b2); reflexivity.
  - rewrite IH.
    destruct (TF.in_bounds (length t) i), dev;
      destruct (TF.gather_rows _ t l) as [r1 | e]; try reflexivity;
      destruct (TF.gather_rows _ t b2); reflexivity.
Qed.

Lemma gather_nd_app (dev : device) (t b1 b2 : list Z) :
  TF.gather_nd dev t (b1 ++ b2)
  = match TF.gather_nd dev t b1 with
    | Raise e => Raise e
    | OK r1 =>
        match TF.gather_nd dev t b2 with
        | Raise e => Raise e
        | OK r2 => OK (r1 ++ r2)
        end
    end.
Proof.
  destruct t as [| x t'].
  - destruct b1 as [| i l]; [| reflexivity].
    destruct b2 as [| j l']; reflexivity.
  - rewrite !gather_nd_rows by discriminate. apply gather_rows_app.
Qed.

Lemma length_gather_rows (dev : device) (t b r : list Z) :
  TF.gather_rows dev t b = OK r -> length r = length b.
Proof.
  revert r. induction b as [| i l IH]; intros r; cbn [TF.gather_rows].
  - now intros [= <-].
  - destruct (TF.in_bounds (length t) i), dev;
      destruct (TF.gather_rows _ t l) as [r1 | e]; try discriminate;
      intros [= <-]; cbn [length]; f_equal; now apply IH.
Qed.

Lemma length_gather_nd (dev : device) (t b r : list Z) :
  TF.gather_nd dev t b = OK r -> length r = length b.
Proof.
  destruct t as [| x t'].
  - destruct b as [| i l]; [now intros [= <-] | discriminate].
  - rewrite gather_nd_rows by discriminate. apply length_gather_rows.
Qed.

Lemma concat3_app (a a' b b' c c' : list TF.float32) :
  length a = length b -> length a = length c ->
  TF.concat3 (a ++ a') (b ++ b') (c ++ c')
  = TF.concat3 a b c ++ TF.concat3 a' b' c'.
Proof.
  revert b c. induction a as [| x t IH]; intros [| y b] [| z c]; cbn; try discriminate.
  - reflexivity.
  - intros [= Hb] [= Hc]. now rewrite IH.
Qed.

Lemma combine_app {A B} (a a' : list A) (b b' : list B) :
  length a = length b ->
  combine (a ++ a') (b ++ b') = combine a b ++ combine a' b'.
Proof.
  revert b. induction a as [| x t IH]; intros [| y b]; cbn; try discriminate.
  - reflexivity.
  - intros [= Hb]. now rewrite IH.
Qed.

(** [call] leaves the layer as it found it, whatever it returns. *)
Lemma call_state (dev : device) (batch : list Z) (self : BinaryTargetEncoding) :
  snd (call dev batch self) = self.
Proof.
  destruct self as [[| | p] [| | n]]; try reflexivity.
  rewrite call_tensors.
  destruct (TF.gather_nd dev p batch); [| reflexivity].
  destruct (TF.gather_nd dev n batch); reflexivity.
Qed.

(** X6.  Encoding is elementwise and reads the layer only: no call
    changes the state, the encoding of two batches put together is the
    two encodings put together, and it fails as soon as one of them
    does. *)
Theorem call_app (dev : device) (b1 b2 : list Z) (self : BinaryTargetEncoding) :
  (forall batch, snd (call dev batch self) = self) /\
  call dev (b1 ++ b2) self
  = match fst (call dev b1 self) with
    | Raise e => (Raise e, self)
    | OK o1 =>
        match fst (call dev b2 self) with
        | Raise e => (Raise e, self)
        | OK o2 => (OK (o1 ++ o2), self)
        end
    end.
Proof.
  split; [intros batch; apply call_state |].
  destruct self as [[| | p] [| | n]]; try reflexivity.
  rewrite !call_tensors, !gather_nd_app.
  destruct (TF.gather_nd dev p b1) as [p1 | e] eqn:Hp1; [| reflexivity].
  destruct (TF.gather_nd dev n b1) as [n1 | e] eqn:Hn1.
  - destruct (TF.gather_nd dev p b2) as [p2 | e] eqn:Hp2; [| reflexivity].
    destruct (TF.gather_nd dev n b2) as [n2 | e] eqn:Hn2; [| reflexivity].
    apply length_gather_nd in Hp1, Hn1. cbn [fst].
    rewrite !map_app, combine_app, map_app, concat3_app; try reflexivity;
      rewrite ?length_map, ?length_combine, ?length_map; lia.
  - destruct (TF.gather_nd dev p b2) as [p2 | e2] eqn:Hp2; [reflexivity |].
    apply gather_nd_raises in Hn1, Hp2. now subst.
Qed.


(** ** Facts about the Python helpers *)

Lemma mapM_OK_inv {A B} (f : A -> result B) (l : list A) (ys : list B) :
  Py.mapM f l = OK ys -> Forall2 (fun x y => f x = OK y) l ys.
Proof.
  revert ys. induction l as [| x t IH]; intros ys; cbn.
  - intros [= <-]. constructor.
  - destruct (f x) as [y | e] eqn:Hx; [| discriminate].
    destruct (Py.mapM f t) as [ys' | e]; [| discriminate].
    intros [= <-]. constructor; auto.
Qed.


Lemma mapM_Raise {A B} (f : A -> result B) (l : list A) (ex : exn) :
  Py.mapM f l = Raise ex -> exists x, In x l /\ f x = Raise ex.
Proof.
  induction l as [| x t IH]; cbn; [discriminate |].
  destruct (f x) as [y | e] eqn:Hx.
  - destruct (Py.mapM f t) as [ys | e]; [discriminate |].
    intros [= ->]. destruct IH as (x' & Hin & Hf); [reflexivity |].
    exists x'. auto.
  - intros [= ->]. exists x. auto.
Qed.

Lemma list_contains_In (l : list string) (x : string) :
  Py.list_contains l x = true <-> In x l.
Proof.
  unfold Py.list_contains. rewrite existsb_exists. split.
  - intros (y & Hy & Heq). apply String.eqb_eq in Heq. now subst.
  - intros Hin. exists x. split; [assumption | apply String.eqb_refl].
Qed.

Lemma list_contains_not_In (l : list string) (x : string) :
  Py.list_contains l x = false <-> ~ In x l.
Proof.
  rewrite <- list_contains_In. destruct (Py.list_contains l x); intuition congruence.
Qed.

Lemma contains_colon_split (s : string) :
  Py.contains_char ":" (Py.split_colon_0 s) = false.
Proof.
  induction s as [| c t IH]; cbn; [reflexivity |].
  destruct (Ascii.eqb c ":") eqn:Hc; cbn; [reflexivity |].
  now rewrite Hc, IH.
Qed.

Lemma contains_colon_replace (s : string) :
  Py.contains_char ":" (Py.replace_space s) = Py.contains_char ":" s.
Proof.
  induction s as [| c t IH]; cbn; [reflexivity |].
  rewrite IH. destruct (Ascii.eqb_spec c " ") as [-> | _]; reflexivity.
Qed.

Lemma contains_space_replace (s : string) :
  Py.contains_char " " (Py.replace_space s) = false.
Proof.
  induction s as [| c t IH]; cbn; [reflexivity |].
  rewrite IH. destruct (Ascii.eqb_spec c " ") as [-> | Hne]; [reflexivity |].
  apply Ascii.eqb_neq in Hne. now rewrite Hne.
Qed.

(** X8.  The column names, when the header is read: none holds a space
    or a colon, the last one is the target column, and there is one
    per line that is not a comment, less the first two. *)
Theorem CSV_HEADER_names (decode : string -> result string)
  (names_file header : list string) :
  CSV_HEADER decode names_file = OK header ->
  Forall (fun name => Py.contains_char " " name = false /\
                      Py.contains_char ":" name = false) header /\
  last header EmptyString = "income_level"%string /\
  length header
  = S (length (filter (fun l => negb (Py.startswith_bar l)) names_file) - 2).
Proof.
  unfold CSV_HEADER.
  destruct (Py.mapM _ _) as [names | e] eqn:Hnames; [| discriminate].
  intros Hheader.
  assert (header = skipn 2 names ++ ["income_level"%string]) as -> by congruence.
  clear Hheader. apply mapM_OK_inv in Hnames.
  assert (Hclean : Forall (fun name => Py.contains_char " " name = false /\
                                       Py.contains_char ":" name = false) names).
  { clear - Hnames. induction Hnames as [| l name ls names Hl _ IH]; constructor; auto.
    destruct (decode l) as [s | e]; [| discriminate]. injection Hl as <-.
    split; [apply contains_space_replace |].
    rewrite contains_colon_replace. apply contains_colon_split. }
  split; [| split].
  - apply Forall_app. split.
    + rewrite Forall_forall in *. intros name Hin. apply Hclean.
      rewrite <- (firstn_skipn 2 names). apply in_or_app. now right.
    + repeat constructor.
  - apply last_last.
  - rewrite length_app, length_skipn, (Forall2_length Hnames). cbn [length]. lia.
Qed.

Lemma list_index_target_labels (l : string) :
  Py.list_index target_labels l
  = if String.eqb " - 50000." l then OK 0
    else if String.eqb " 50000+." l then OK 1
    else Raise ValueError.
Proof.
  unfold target_labels. cbn [Py.list_index].
  destruct (String.eqb " - 50000." l); [reflexivity |].
  destruct (String.eqb " 50000+." l); reflexivity.
Qed.

(** X9.  Turning the income labels into integers: it goes through
    exactly when every label is one of the two known ones, and it
    writes 0 for the lower and 1 for the higher, which the encoder
    reads as a negative and a positive target. *)
Theorem map_target_labels_spec (column : list string) :
  ((exists ys, map_target_labels column = OK ys) <->
   Forall (fun l => l = " - 50000."%string \/ l = " 50000+."%string) column) /\
  ((exists ys, map_target_labels column = OK ys) \/
   map_target_labels column = Raise ValueError) /\
  (forall ys, map_target_labels column = OK ys ->
     Forall2 (fun l y => (l = " - 50000."%string /\ y = 0) \/
                         (l = " 50000+."%string /\ y = 1)) column ys /\
     Forall2 (fun l y => TF.cast_bool y = true <-> l = " 50000+."%string) column ys).
Proof.
  assert (Hinv : forall ys, map_target_labels column = OK ys ->
            Forall2 (fun l y => (l = " - 50000."%string /\ y = 0) \/
                                (l = " 50000+."%string /\ y = 1)) column ys).
  { intros ys Hys. apply mapM_OK_inv in Hys.
    induction Hys as [| l y ls ys Hl _ IH]; constructor; try assumption.
    rewrite list_index_target_labels in Hl.
    destruct (String.eqb_spec " - 50000." l) as [<- | _]; [left; split; congruence |].
    destruct (String.eqb_spec " 50000+." l) as [<- | _]; [right; split; congruence |].
    discriminate. }
  split; [split |]; [| | split].
  - intros [ys Hys]. specialize (Hinv ys Hys). clear Hys.
    induction Hinv as [| l y ls ys' Hl _ IH]; constructor; tauto.
  - intros Hall. clear Hinv. induction Hall as [| l ls Hl _ [ys IH]].
    + exists []. reflexivity.
    + unfold map_target_labels in *. cbn [Py.mapM].
      rewrite list_index_target_labels, IH.
      destruct Hl as [-> | ->]; cbn; eexists; reflexivity.
  - clear Hinv. destruct (map_target_labels column) as [ys | e] eqn:Hrun.
    + left. now exists ys.
    + right. apply mapM_Raise in Hrun. destruct Hrun as (l & _ & Hl).
      rewrite list_index_target_labels in Hl.
      destruct (String.eqb " - 50000." l); [discriminate |].
      destruct (String.eqb " 50000+." l); [discriminate |].
      injection Hl as <-. reflexivity.
  - intros ys Hys. split; [now apply Hinv |].
    specialize (Hinv ys Hys). clear Hys.
    induction Hinv as [| l y ls ys' Hl _ IH]; constructor; try assumption.
    destruct Hl as [[-> ->] | [-> ->]]; cbn; split; congruence.
Qed.

Lemma dict_set_fresh {V} (d : Py.dict V) (k : string) (v : V) :
  ~ In k (Py.dict_keys d) -> Py.dict_set d k v = d ++ [(k, v)].
Proof.
  induction d as [| [k' v'] t IH]; cbn; [reflexivity |].
  intros Hk. destruct (String.eqb_spec k' k) as [-> | _]; [tauto |].
  rewrite IH by tauto. reflexivity.
Qed.

Lemma dict_keys_set {V} (d : Py.dict V) (k : string) (v : V) :
  Py.dict_keys (Py.dict_set d k v)
  = if Py.dict_contains d k then Py.dict_keys d else Py.dict_keys d ++ [k].
Proof.
  unfold Py.dict_contains, Py.list_contains, Py.dict_keys.
  induction d as [| [k' v'] t IH]; cbn; [reflexivity |].
  rewrite (String.eqb_sym k k').
  destruct (String.eqb k' k); cbn; [reflexivity |].
  rewrite IH. destruct (existsb _ _); reflexivity.
Qed.

Lemma dict_contains_In {V} (d : Py.dict V) (k : string) :
  Py.dict_contains d k = true <-> In k (Py.dict_keys d).
Proof. apply list_contains_In. Qed.

Lemma dict_get_set {V} (d : Py.dict V) (k k' : string) (v : V) :
  Py.dict_get (Py.dict_set d k v) k'
  = if String.eqb k k' then Some v else Py.dict_get d k'.
Proof.
  induction d as [| [k0 v0] t IH]; cbn.
  - reflexivity.
  - destruct (String.eqb_spec k0 k) as [-> | Hne]; cbn.
    + destruct (String.eqb k k'); reflexivity.
    + rewrite IH. destruct (String.eqb_spec k0 k') as [-> | _]; [| reflexivity].
      destruct (String.eqb_spec k k') as [-> | _]; [congruence | reflexivity].
Qed.

(** Filling a dictionary from distinct keys lists them in order. *)
Lemma fold_dict_set {V} (keep : string -> bool) (value : string -> V)
  (keys : list string) :
  forall d : Py.dict V,
    NoDup keys ->
    (forall k, In k keys -> ~ In k (Py.dict_keys d)) ->
    fold_left (fun d k => if keep k then Py.dict_set d k (value k) else d) keys d
    = d ++ map (fun k => (k, value k)) (filter keep keys).
Proof.
  induction keys as [| k t IH]; intros d Hnd Hfresh; cbn [fold_left filter map].
  - now rewrite app_nil_r.
  - inversion Hnd as [| ? ? Hk Ht]; subst.
    destruct (keep k).
    + rewrite IH; [| assumption |].
      * rewrite dict_set_fresh by (apply Hfresh; now left).
        rewrite <- app_assoc. reflexivity.
      * intros k' Hk'. rewrite dict_keys_set.
        replace (Py.dict_contains d k) with false.
        -- unfold Py.dict_keys. rewrite in_app_iff. cbn.
           intros [Hin | [-> | []]]; [| contradiction].
           apply (Hfresh k'); [now right | assumption].
        -- symmetry. apply list_contains_not_In. apply Hfresh. now left.
    + apply IH; [assumption |]. intros k' Hk'. apply Hfresh. now right.
Qed.

(** The keys of a dictionary comprehension: the kept names, once each,
    in the order of their first occurrence. *)
Lemma fold_dict_set_keys {V} (keep : string -> bool) (value : string -> V)
  (names : list string) :
  forall d : Py.dict V,
    NoDup (Py.dict_keys d) ->
    let d' := fold_left (fun d k => if keep k then Py.dict_set d k (value k) else d)
                names d in
    NoDup (Py.dict_keys d') /\
    forall k, In k (Py.dict_keys d') <->
              In k (Py.dict_keys d) \/ (In k names /\ keep k = true).
Proof.
  induction names as [| n t IH]; intros d Hnd; cbn [fold_left].
  - split; [assumption |]. intros k. cbn. tauto.
  - destruct (keep n) eqn:Hn.
    + assert (Hnd' : NoDup (Py.dict_keys (Py.dict_set d n (value n)))).
      { rewrite dict_keys_set. destruct (Py.dict_contains d n) eqn:Hc; [assumption |].
        apply NoDup_app; [assumption | repeat constructor; cbn; tauto |].
        intros x Hx [-> | []]. apply list_contains_not_In in Hc. contradiction. }
      destruct (IH _ Hnd') as [H1 H2]. split; [exact H1 |].
      intros k. rewrite H2, dict_keys_set.
      destruct (Py.dict_contains d n) eqn:Hc.
      * apply dict_contains_In in Hc. cbn. split; [tauto |].
        intros [Hk | [[-> | Hk] Hkeep]]; auto.
      * rewrite in_app_iff. cbn. split.
        -- intros [[Hk | [-> | []]] | [Hk Hkeep]]; auto.
        -- intros [Hk | [[-> | Hk] Hkeep]]; auto.
    + destruct (IH _ Hnd) as [H1 H2]. split; [exact H1 |].
      intros k. rewrite H2. cbn. split; [tauto |].
      intros [Hk | [[-> | Hk] Hkeep]]; auto. congruence.
Qed.

Lemma NUMERIC_FEATURE_NAMES_NoDup : NoDup NUMERIC_FEATURE_NAMES.
Proof.
  unfold NUMERIC_FEATURE_NAMES.
  repeat (constructor; [cbn; intuition discriminate |]). constructor.
Qed.

(** The keys of the categorical dictionary. *)
Lemma categorical_keys (header : list string) (vocabulary : string -> list string) :
  let categorical := CATEGORICAL_FEATURES_WITH_VOCABULARY header vocabulary in
  NoDup (Py.dict_keys categorical) /\
  forall k, In k (Py.dict_keys categorical) <->
    In k header /\ ~ In k NUMERIC_FEATURE_NAMES /\
    k <> WEIGHT_COLUMN_NAME /\ k <> TARGET_COLUMN_NAME.
Proof.
  cbv zeta. unfold CATEGORICAL_FEATURES_WITH_VOCABULARY.
  set (excluded := NUMERIC_FEATURE_NAMES ++ [WEIGHT_COLUMN_NAME; TARGET_COLUMN_NAME]).
  set (keep := fun k => negb (Py.list_contains excluded k)).
  assert (Hfold : forall l (d : Py.dict (list string)),
            fold_left (fun d k => if Py.list_contains excluded k then d
                                  else Py.dict_set d k (vocabulary k)) l d
            = fold_left (fun d k => if keep k then Py.dict_set d k (vocabulary k) else d) l d).
  { induction l as [| k t IH]; intros d; cbn [fold_left]; [reflexivity |].
    unfold keep at 2. destruct (Py.list_contains excluded k); cbn [negb]; apply IH. }
  rewrite Hfold.
  destruct (fold_dict_set_keys keep vocabulary header [] ltac:(constructor)) as [Hnd Hkeys].
  cbv zeta in Hnd, Hkeys. split; [exact Hnd |].
  intros k. rewrite Hkeys. unfold keep.
  rewrite negb_true_iff, list_contains_not_In.
  unfold excluded. rewrite in_app_iff. cbn. intuition congruence.
Qed.

Lemma FEATURE_NAMES_NoDup (header : list string) (vocabulary : string -> list string) :
  NoDup (FEATURE_NAMES (CATEGORICAL_FEATURES_WITH_VOCABULARY header vocabulary)).
Proof.
  destruct (categorical_keys header vocabulary) as [Hnd Hcat].
  apply NoDup_app; [apply NUMERIC_FEATURE_NAMES_NoDup | assumption |].
  intros k Hk Hk'. apply Hcat in Hk'. tauto.
Qed.

(** A key of a dictionary comprehension holds the value computed for it. *)
Lemma fold_dict_set_get {V} (keep : string -> bool) (value : string -> V)
  (names : list string) :
  forall d : Py.dict V,
    (forall k, In k (Py.dict_keys d) -> Py.dict_get d k = Some (value k)) ->
    let d' := fold_left (fun d k => if keep k then Py.dict_set d k (value k) else d)
                names d in
    forall k, In k (Py.dict_keys d') -> Py.dict_get d' k = Some (value k).
Proof.
  induction names as [| n t IH]; intros d Hd; cbn [fold_left]; [exact Hd |].
  apply IH. destruct (keep n); [| exact Hd].
  intros k'. rewrite dict_get_set, dict_keys_set.
  destruct (String.eqb_spec n k') as [-> | Hne]; [reflexivity |].
  intros Hk'. apply Hd. destruct (Py.dict_contains d n); [assumption |].
  apply in_app_iff in Hk'. destruct Hk' as [| [-> | []]]; [assumption | congruence].
Qed.

(** Every key of the dictionary holds the vocabulary of its column. *)
Lemma categorical_get (header : list string) (vocabulary : string -> list string)
  (name : string) :
  let categorical := CATEGORICAL_FEATURES_WITH_VOCABULARY header vocabulary in
  In name (Py.dict_keys categorical) ->
  Py.dict_get categorical name = Some (vocabulary name).
Proof.
  cbv zeta. unfold CATEGORICAL_FEATURES_WITH_VOCABULARY.
  set (excluded := NUMERIC_FEATURE_NAMES ++ [WEIGHT_COLUMN_NAME; TARGET_COLUMN_NAME]).
  set (keep := fun k => negb (Py.list_contains excluded k)).
  assert (Hfold : forall l (d : Py.dict (list string)),
            fold_left (fun d k => if Py.list_contains excluded k then d
                                  else Py.dict_set d k (vocabulary k)) l d
            = fold_left (fun d k => if keep k then Py.dict_set d k (vocabulary k) else d) l d).
  { induction l as [| k t IH]; intros d; cbn [fold_left]; [reflexivity |].
    unfold keep at 2. destruct (Py.list_contains excluded k); cbn [negb]; apply IH. }
  rewrite Hfold. intros Hin.
  apply (fold_dict_set_get keep vocabulary header []); [intros k [] | exact Hin].
Qed.


(** X10.  The feature names: the numeric names followed by each other
    header name once, without the weight and the target column; no
    name is listed twice, and each categorical name is a key holding
    its vocabulary. *)
Theorem FEATURE_NAMES_spec (header : list string) (vocabulary : string -> list string) :
  let categorical := CATEGORICAL_FEATURES_WITH_VOCABULARY header vocabulary in
  let names := FEATURE_NAMES categorical in
  NoDup names /\
  ~ In TARGET_COLUMN_NAME names /\
  ~ In WEIGHT_COLUMN_NAME names /\
  (forall name, In name names <->
     In name NUMERIC_FEATURE_NAMES \/
     (In name header /\ name <> WEIGHT_COLUMN_NAME /\ name <> TARGET_COLUMN_NAME)) /\
  (forall name, In name names ->
     Py.list_contains NUMERIC_FEATURE_NAMES name = false ->
     Py.dict_get categorical name = Some (vocabulary name)).
Proof.
  cbv zeta.
  destruct (categorical_keys header vocabulary) as [Hnd Hcat]. cbv zeta in Hnd, Hcat.
  assert (Hnum : ~ In TARGET_COLUMN_NAME NUMERIC_FEATURE_NAMES /\
                 ~ In WEIGHT_COLUMN_NAME NUMERIC_FEATURE_NAMES).
  { split; cbn; intuition discriminate. }
  split; [apply FEATURE_NAMES_NoDup |].
  unfold FEATURE_NAMES.
  split; [| split; [| split]].
  - rewrite in_app_iff, Hcat. tauto.
  - rewrite in_app_iff, Hcat. tauto.
  - intros name. rewrite in_app_iff, Hcat.
    destruct (in_dec string_dec name NUMERIC_FEATURE_NAMES) as [Hin | Hnot]; tauto.
  - intros name Hin Hnum'. apply list_contains_not_In in Hnum'.
    apply in_app_iff in Hin. destruct Hin as [Hin | Hin]; [contradiction |].
    now apply categorical_get.
Qed.

Lemma create_model_inputs_closed (names : list string) :
  NoDup names ->
  create_model_inputs names
  = map (fun name =>
           (name, {| input_name := name; input_shape := [];
                     input_dtype := if Py.list_contains NUMERIC_FEATURE_NAMES name
                                    then tf_float32 else tf_string |}))
        names.
Proof.
  intros Hnd. unfold create_model_inputs.
  set (value := fun name =>
         {| input_name := name; input_shape := [];
            input_dtype := if Py.list_contains NUMERIC_FEATURE_NAMES name
                           then tf_float32 else tf_string |}).
  transitivity (fold_left (fun (d : Py.dict Input) k =>
                             if true then Py.dict_set d k (value k) else d) names []).
  - clear Hnd. generalize (@nil (string * Input)).
    induction names as [| n t IH]; intros d; cbn [fold_left]; [reflexivity |].
    rewrite <- IH. f_equal. unfold value.
    destruct (Py.list_contains NUMERIC_FEATURE_NAMES n); reflexivity.
  - rewrite (fold_dict_set (fun _ => true) value names []); try assumption.
    + cbn [app]. f_equal. clear. induction names; cbn; congruence.
    + intros k _ [].
Qed.

(** X11.  Inputs and usages of the model on raw features: one input and
    one usage per feature name, in order; the numeric names get a
    [float32] input and the numerical semantic, every other name a
    string input and the categorical semantic. *)
Theorem specify_feature_usages_inputs (header : list string)
  (vocabulary : string -> list string) :
  let names := FEATURE_NAMES (CATEGORICAL_FEATURES_WITH_VOCABULARY header vocabulary) in
  let inputs := create_model_inputs names in
  Py.dict_keys inputs = names /\
  (forall name, In name names ->
     Py.dict_get inputs name
     = Some {| input_name := name; input_shape := [];
               input_dtype := if Py.list_contains NUMERIC_FEATURE_NAMES name
                              then tf_float32 else tf_string |}) /\
  specify_feature_usages inputs
  = map (fun name =>
           {| usage_name := name;
              usage_semantic := if Py.list_contains NUMERIC_FEATURE_NAMES name
                                then NUMERICAL else CATEGORICAL |})
        names.
Proof.
  cbv zeta.
  pose proof (FEATURE_NAMES_NoDup header vocabulary) as Hnd.
  set (names := FEATURE_NAMES _) in *.
  rewrite (create_model_inputs_closed names Hnd). clearbody names.
  split; [| split].
  - unfold Py.dict_keys. rewrite map_map. cbn. apply map_id.
  - clear Hnd. induction names as [| n t IH]; intros name Hin; [inversion Hin |].
    cbn [map Py.dict_get].
    destruct (String.eqb_spec n name) as [-> | Hne]; [reflexivity |].
    apply IH. destruct Hin; [contradiction | assumption].
  - unfold specify_feature_usages. rewrite map_map. apply map_ext.
    intros name. cbv beta iota. cbn [input_dtype].
    destruct (Py.list_contains NUMERIC_FEATURE_NAMES name); reflexivity.
Qed.

(** ** Facts about [prepare_sample] *)

Lemma dict_get_app_fresh {V} (pre d : Py.dict V) (k : string) :
  ~ In k (Py.dict_keys pre) -> Py.dict_get (pre ++ d) k = Py.dict_get d k.
Proof.
  induction pre as [| [k' v'] t IH]; cbn; [reflexivity |].
  intros Hk. destruct (String.eqb_spec k' k) as [-> | _]; [tauto |].
  apply IH. tauto.
Qed.

Lemma dict_set_app_fresh {V} (pre d : Py.dict V) (k : string) (v : V) :
  ~ In k (Py.dict_keys pre) -> Py.dict_set (pre ++ d) k v = pre ++ Py.dict_set d k v.
Proof.
  induction pre as [| [k' v'] t IH]; cbn; [reflexivity |].
  intros Hk. destruct (String.eqb_spec k' k) as [-> | _]; [tauto |].
  rewrite IH by tauto. reflexivity.
Qed.

Lemma as_string_is_string (format : TF.float32 -> string) (t : FeatureTensor) :
  is_string (as_string format t) = true /\
  (is_string t = true -> as_string format t = t).
Proof.
  destruct t; cbn; split; auto; discriminate.
Qed.

(** The loop of [prepare_sample] rewrites each categorical entry in
    place. *)
Lemma prepare_sample_loop (format : TF.float32 -> string)
  (categorical : Py.dict (list string)) (rest : Py.dict FeatureTensor) :
  forall pre : Py.dict FeatureTensor,
    NoDup (Py.dict_keys (pre ++ rest)) ->
    fold_left
      (fun features feature_name =>
         if Py.dict_contains categorical feature_name then
           match Py.dict_get features feature_name with
           | Some t =>
               if negb (is_string t)
               then Py.dict_set features feature_name (as_string format t)
               else features
           | None => features
           end
         else features)
      (Py.dict_keys rest) (pre ++ rest)
    = pre ++ map (fun item : string * FeatureTensor =>
                    (fst item,
                     if Py.dict_contains categorical (fst item)
                     then as_string format (snd item) else snd item))
                 rest.
Proof.
  induction rest as [| [k t] rest' IH]; intros pre Hnd; [reflexivity |].
  cbn [Py.dict_keys map fold_left fst snd].
  assert (Hfresh : ~ In k (Py.dict_keys pre)).
  { unfold Py.dict_keys in *. rewrite map_app in Hnd. cbn in Hnd.
    apply NoDup_remove_2 in Hnd. rewrite in_app_iff in Hnd. tauto. }
  assert (Hnext : forall v,
            NoDup (Py.dict_keys ((pre ++ [(k, v)]) ++ rest'))).
  { intros v. rewrite <- app_assoc. cbn [app].
    unfold Py.dict_keys in *. rewrite map_app in *. exact Hnd. }
  fold (Py.dict_keys rest').
  destruct (Py.dict_contains categorical k).
  - rewrite dict_get_app_fresh by assumption. cbn [Py.dict_get].
    rewrite String.eqb_refl.
    destruct (is_string t) eqn:Hs; cbn [negb].
    + destruct (as_string_is_string format t) as [_ Hid]. rewrite (Hid Hs).
      specialize (IH (pre ++ [(k, t)]) (Hnext t)).
      rewrite <- app_assoc in IH. cbn [app] in IH. rewrite IH.
      rewrite <- app_assoc. reflexivity.
    + rewrite dict_set_app_fresh by assumption. cbn [Py.dict_set].
      rewrite String.eqb_refl.
      specialize (IH (pre ++ [(k, as_string format t)]) (Hnext _)).
      rewrite <- app_assoc in IH. cbn [app] in IH. rewrite IH.
      rewrite <- app_assoc. reflexivity.
  - specialize (IH (pre ++ [(k, t)]) (Hnext t)).
    rewrite <- app_assoc in IH. cbn [app] in IH. rewrite IH.
    rewrite <- app_assoc. reflexivity.
Qed.

(** X12.  [prepare_sample] keeps the keys, their order, the target and
    the weight; it leaves every feature that is not categorical as it
    was and makes every categorical feature a string tensor; applying
    it again changes nothing. *)
Theorem prepare_sample_spec {T W : Type} (format : TF.float32 -> string)
  (categorical : Py.dict (list string)) (features : Py.dict FeatureTensor)
  (target : T) (weight : W) :
  NoDup (Py.dict_keys features) ->
  exists features',
    prepare_sample format categorical features target weight
    = (features', target, weight) /\
    Py.dict_keys features' = Py.dict_keys features /\
    (forall name t, In (name, t) features ->
       Py.dict_contains categorical name = false -> In (name, t) features') /\
    (forall name t, In (name, t) features' ->
       Py.dict_contains categorical name = true -> is_string t = true) /\
    prepare_sample format categorical features' target weight
    = (features', target, weight).
Proof.
  intros Hnd.
  set (g := fun item : string * FeatureTensor =>
              (fst item,
               if Py.dict_contains categorical (fst item)
               then as_string format (snd item) else snd item)).
  assert (Hkeys : forall d : Py.dict FeatureTensor,
            Py.dict_keys (map g d) = Py.dict_keys d).
  { intros d. unfold Py.dict_keys. rewrite map_map. reflexivity. }
  assert (Hrun : forall d : Py.dict FeatureTensor,
            NoDup (Py.dict_keys d) ->
            prepare_sample format categorical d target weight
            = (map g d, target, weight)).
  { intros d Hd. unfold prepare_sample.
    pose proof (prepare_sample_loop format categorical d [] Hd) as Hloop.
    cbn [app] in Hloop. rewrite Hloop. reflexivity. }
  exists (map g features). split; [now apply Hrun |].
  split; [apply Hkeys |]. split; [| split].
  - intros name t Hin Hcat. apply in_map_iff. exists (name, t).
    split; [| assumption]. unfold g. cbn [fst snd]. now rewrite Hcat.
  - intros name t Hin Hcat. apply in_map_iff in Hin.
    destruct Hin as ([k t0] & Heq & _). unfold g in Heq. cbn [fst snd] in Heq.
    injection Heq as -> <-. rewrite Hcat. apply as_string_is_string.
  - rewrite Hrun by (now rewrite Hkeys). f_equal. f_equal.
    rewrite map_map. apply map_ext. intros [k t]. unfold g. cbn [fst snd].
    destruct (Py.dict_contains categorical k); [| reflexivity].
    f_equal. apply as_string_is_string. apply as_string_is_string.
Qed.

(** ** Facts about vocabularies and lookups *)
















(** ** The preprocessing model with target encoding *)


























(** ** The further theorems at concrete inputs *)

Lemma adapt_CPU_succeeds_iff_dense_witness :
  Forall (fun v => 0 <= v) (features test_data) /\
  Z.of_nat (length test_data) <= TF.INT32_MAX /\
  ((exists enc, adapt CPU test_data init = (OK tt, enc)) <->
   exists n, dense_range test_data n).
Proof.
  assert (Hpos : Forall (fun v => 0 <= v) (features test_data)).
  { cbn. repeat constructor; lia. }
  assert (Hlen : Z.of_nat (length test_data) <= TF.INT32_MAX).
  { cbn. unfold TF.INT32_MAX. lia. }
  split; [exact Hpos |]. split; [exact Hlen |].
  exact (adapt_CPU_succeeds_iff_dense test_data init Hpos Hlen).
Defined.

Lemma table_totals_witness :
  adapt CPU test_data init
  = (OK tt, {| positive_frequency_lookup := Tensor [6; 4; 1];
               negative_frequency_lookup := Tensor [0; 3; 5] |}) /\
  list_sum [6; 4; 1] + list_sum [0; 3; 5] <= Z.of_nat (length test_data).
Proof.
  assert (Hrun : adapt CPU test_data init
                 = (OK tt, {| positive_frequency_lookup := Tensor [6; 4; 1];
                              negative_frequency_lookup := Tensor [0; 3; 5] |}))
    by reflexivity.
  split; [exact Hrun |].
  exact (proj1 (proj2 (proj2 (table_totals CPU test_data init _ _ Hrun)))).
Defined.

Lemma probability_extremes_witness :
  let enc := {| positive_frequency_lookup := Tensor [6; 4; 1];
                negative_frequency_lookup := Tensor [0; 3; 5] |} in
  fitted enc /\
  Forall (fun v => 0 <= v < fitted_size enc) [0; 1; 2] /\
  exists out, call CPU [0; 1; 2] enc = (OK out, enc).
Proof.
  cbv zeta.
  assert (Hin : Forall (fun v => 0 <= v < fitted_size
                         {| positive_frequency_lookup := Tensor [6; 4; 1];
                            negative_frequency_lookup := Tensor [0; 3; 5] |})
                       [0; 1; 2]).
  { repeat constructor; unfold fitted_size; cbn; lia. }
  split; [exact test_encoder_fitted |]. split; [exact Hin |].
  destruct (probability_extremes CPU _ [0; 1; 2] test_encoder_fitted Hin)
    as (out & Hcall & _).
  exists out. exact Hcall.
Defined.

Lemma CSV_HEADER_names_witness :
  let names_file :=
    [ "| This data was extracted"; "- 50000, 50000+."; "";
      "age: continuous."; "class of worker: Private, Local government." ]%string in
  CSV_HEADER OK names_file = OK ["age"; "class_of_worker"; "income_level"]%string /\
  last ["age"; "class_of_worker"; "income_level"]%string EmptyString
  = "income_level"%string.
Proof.
  cbv zeta.
  assert (Hrun : CSV_HEADER OK
                   [ "| This data was extracted"; "- 50000, 50000+."; "";
                     "age: continuous.";
                     "class of worker: Private, Local government." ]%string
                 = OK ["age"; "class_of_worker"; "income_level"]%string)
    by reflexivity.
  split; [exact Hrun |].
  exact (proj1 (proj2 (CSV_HEADER_names OK _ _ Hrun))).
Defined.

Lemma prepare_sample_spec_witness :
  let categorical := [("education", ["10"; "7"])]%string in
  let features :=
    [ ("age", FloatTensor [S754_zero false]);
      ("education", Int64Tensor [7]) ]%string in
  NoDup (Py.dict_keys features) /\
  exists features',
    prepare_sample (fun _ => "0.000000"%string) categorical features 1 tt
    = (features', 1, tt) /\
    Py.dict_keys features' = Py.dict_keys features.
Proof.
  cbv zeta.
  assert (Hnd : NoDup (Py.dict_keys
                         [ ("age", FloatTensor [S754_zero false]);
                           ("education", Int64Tensor [7]) ]%string)).
  { cbn. repeat constructor; cbn; intuition discriminate. }
  split; [exact Hnd |].
  destruct (prepare_sample_spec (fun _ => "0.000000"%string)
              [("education", ["10"; "7"])]%string _ 1 tt Hnd)
    as (features' & Hrun & Hkeys & _).
  exists features'. split; [exact Hrun | exact Hkeys].
Defined.


